(** * The chat session hook [useChat] (src/hooks/use-chat.ts)

    A shallow embedding of the React hook that keeps the chat transcript
    (the Message list) and the compact conversation context (the Exchange
    list), restores both from [localStorage] and persists them after every
    change.

    The hook is written in TypeScript; at run time its state holds plain
    JavaScript values, and what it restores from storage is whatever
    [JSON.parse] returned.  The embedding therefore works on a small
    universe of JavaScript values; [is_message] and [is_exchange] say
    which of them are Messages and Exchange entries. *)

From stdpp Require Import base numbers list strings gmap pretty.
From Stdlib Require Import ZArith Lia Ascii.

Set Warnings "-register-all".

(** ** Exceptions and results

    A JavaScript computation either returns or throws. *)

Inductive exn := SyntaxError | TypeError | SecurityError | QuotaExceededError.

Inductive result (A : Type) :=
| Ok (a : A)
| Throw (e : exn).
Arguments Ok {A} a.
Arguments Throw {A} e.

Global Instance result_ret : MRet result := λ A a, Ok a.
Global Instance result_bind : MBind result := λ A B f m,
  match m with Ok a => f a | Throw e => Throw e end.

(** [try { m } catch (error) { h }]: the handler of the source never
    inspects the error and never throws. *)
Definition try_catch {A} (m : result A) (h : A) : A :=
  match m with Ok a => a | Throw _ => h end.

Definition returns {A} (m : result A) : Prop := ∃ a, m = Ok a.

(** ** JavaScript values *)

(** A [Date] object holds a time value in milliseconds since the epoch, or
    NaN ("Invalid Date"). *)
Inductive Date :=
| TimeValue (t : Z)
| InvalidDate.

(** Numbers are restricted to integers: the hook computes with array
    lengths and the history cap only. *)
Inductive val :=
| VUndefined
| VNull
| VBool (b : bool)
| VNum (n : Z)
| VStr (s : string)
| VDate (d : Date)
| VArr (xs : list val)
| VObj (ps : list (string * val)).

(** Objects are property lists in insertion order. *)
Fixpoint get_prop (k : string) (ps : list (string * val)) : val :=
  match ps with
  | [] => VUndefined
  | (k', v) :: ps => if decide (k = k') then v else get_prop k ps
  end.

(** [{ ...o, k: v }]: an existing property keeps its place. *)
Fixpoint set_prop (k : string) (v : val) (ps : list (string * val))
  : list (string * val) :=
  match ps with
  | [] => [(k, v)]
  | (k', v') :: ps =>
      if decide (k = k') then (k, v) :: ps else (k', v') :: set_prop k v ps
  end.

Definition chars (s : string) : list val :=
  (λ c, VStr (String c EmptyString)) <$> String.list_ascii_of_string s.

Definition indexed (xs : list val) : list (string * val) :=
  imap (λ i x, (pretty i, x)) xs.

(** The own enumerable properties copied by an object spread [{ ...v }]. *)
Definition own_props (v : val) : list (string * val) :=
  match v with
  | VObj ps => ps
  | VArr xs => indexed xs
  | VStr s => indexed (chars s)
  | _ => []
  end.

(** Property read [v.k]; the prototypes define no property of the names
    the hook reads. *)
Definition get_member (k : string) (v : val) : result val :=
  match v with
  | VUndefined | VNull => Throw TypeError
  | VObj ps => Ok (get_prop k ps)
  | _ => Ok VUndefined
  end.

(** [v.map(f)]: only arrays have a callable [map]. *)
Definition array_map (f : val → result val) (v : val) : result (list val) :=
  match v with
  | VArr xs => mapM f xs
  | _ => Throw TypeError
  end.

(** The array spread [[...v]]: arrays and strings are iterable. *)
Definition iterate (v : val) : result (list val) :=
  match v with
  | VArr xs => Ok xs
  | VStr s => Ok (chars s)
  | _ => Throw TypeError
  end.

(** [Array.prototype.slice(start)] with one argument: a negative [start]
    counts from the end, and [-0] is [0]. *)
Definition slice {A} (start : Z) (l : list A) : list A :=
  let len := Z.of_nat (length l) in
  let k := if (start <? 0)%Z then Z.max (len + start) 0
           else Z.min start len in
  drop (Z.to_nat k) l.

(** ** The host: built-in functions the hook calls

    [JSON.parse], the text that [JSON.stringify] writes for plain data, the
    ISO format of dates and the host's reading of date strings are taken as
    an interface. *)
Class Host := {
  (** [JSON.parse]; [None] stands for the [SyntaxError] it throws. *)
  JSON_parse : string → option val;
  (** The JSON text of a value free of dates and [undefined]. *)
  JSON_text : val → string;
  (** [Date.prototype.toISOString] of a time value. *)
  toISOString : Z → string;
  (** [Date.parse]; [None] stands for NaN. *)
  Date_parse : string → option Z;
  (** [new Date(o)] for an array or an object [o]: conversion to a
      primitive, which may throw, then as for primitives. *)
  Date_of_object : val → result Date;
}.

Definition TimeClip (n : Z) : Date :=
  if decide (Z.abs n ≤ 8640000000000000)%Z then TimeValue n else InvalidDate.

Section WithHost.
Context `{Host}.

(** [new Date(v)] with one argument. *)
Definition new_Date (v : val) : result Date :=
  match v with
  | VUndefined => Ok InvalidDate
  | VNull => Ok (TimeValue 0)
  | VBool b => Ok (TimeValue (if b then 1 else 0))
  | VNum n => Ok (TimeClip n)
  | VStr s =>
      Ok (match Date_parse s with Some t => TimeValue t | None => InvalidDate end)
  | VDate d => Ok d
  | VArr _ | VObj _ => Date_of_object v
  end.

(** What [JSON.stringify] makes of a value before writing it: a date
    becomes its ISO string ([Date.prototype.toJSON], [null] when
    invalid), an [undefined] property is left out and an [undefined]
    array element becomes [null]. *)
Fixpoint jsonify (v : val) : val :=
  match v with
  | VDate (TimeValue t) => VStr (toISOString t)
  | VDate InvalidDate => VNull
  | VArr xs =>
      VArr (map (λ x, match jsonify x with VUndefined => VNull | j => j end) xs)
  | VObj ps =>
      VObj (omap (λ p, match p with
                       | (k, x) => match jsonify x with
                                   | VUndefined => None
                                   | j => Some (k, j)
                                   end
                       end) ps)
  | _ => v
  end.

(** [JSON.stringify(v)], as the string [setItem] stores. *)
Definition JSON_stringify (v : val) : string :=
  match jsonify v with
  | VUndefined => "undefined"
  | j => JSON_text j
  end.
End WithHost.

(** ** localStorage *)

(** The origin's storage: its entries, whether the page may touch it at all
    (access throws [SecurityError] otherwise) and how many characters it
    accepts ([setItem] throws [QuotaExceededError] beyond). *)
Record Storage := {
  items : gmap string string;
  accessible : bool;
  quota : option nat;
}.

Definition used (m : gmap string string) : nat :=
  map_fold (λ k v n, String.length k + String.length v + n) 0 m.

Definition getItem (k : string) (st : Storage) : result (option string) :=
  if accessible st then Ok (items st !! k) else Throw SecurityError.

Definition setItem (k v : string) (st : Storage) : result Storage :=
  if accessible st then
    let m := <[k := v]> (items st) in
    match quota st with
    | Some q =>
        if decide (used m ≤ q) then
          Ok {| items := m; accessible := true; quota := quota st |}
        else Throw QuotaExceededError
    | None => Ok {| items := m; accessible := true; quota := quota st |}
    end
  else Throw SecurityError.

Definition removeItem (k : string) (st : Storage) : result Storage :=
  if accessible st then
    Ok {| items := delete k (items st); accessible := true; quota := quota st |}
  else Throw SecurityError.

(** ** The hook *)

Record UseChatOptions := {
  storageKey : string;
  maxHistoryLength : Z;
}.

Definition default_options : UseChatOptions :=
  {| storageKey := "skincare-chat-history"; maxHistoryLength := 50 |}.

(** The two pieces of React state. [conversationHistory] is declared as an
    array, but it is initialised with whatever [JSON.parse] returned. *)
Record Hook := {
  messages : list val;
  conversationHistory : val;
}.

(** What [addMessage] reads from its environment: [Date.now()], the
    characters [Math.random().toString(36).substr(2, 9)] and the time of
    [new Date()]. *)
Record Env := {
  Date_now : Z;
  random : string;
  now : Z;
}.

Definition messages_key (o : UseChatOptions) : string :=
  storageKey o +:+ "-messages".
Definition conversation_key (o : UseChatOptions) : string :=
  storageKey o +:+ "-conversation".

Definition welcome_text : string :=
  "Hi! I'm your AI-powered skincare consultant. I can help you with skincare routines, product recommendations, ingredient questions, and skin concerns. What would you like to know about skincare today?".

Definition cleared_text : string :=
  "Chat cleared! How can I help you with your skincare today?".

(** The seed of a fresh session (use-chat.ts, lines 34-39). *)
Definition initial_message (t : Z) : val :=
  VObj [("id", VStr "initial");
        ("content", VStr welcome_text);
        ("sender", VStr "bot");
        ("timestamp", VDate (TimeValue t))].

(** The seed after [clearChat] (lines 102-107). *)
Definition cleared_message (date_now t : Z) : val :=
  VObj [("id", VStr ("initial-" +:+ pretty date_now));
        ("content", VStr cleared_text);
        ("sender", VStr "bot");
        ("timestamp", VDate (TimeValue t))].

(** One entry of the Exchange list (lines 87-88). *)
Definition exchange (role content : string) : val :=
  VObj [("role", VStr role); ("content", VStr content)].

(** A session as the hook seeds it when nothing is restored, and as
    [clearChat] seeds it. *)
Definition fresh_session (t : Z) : Hook :=
  {| messages := [initial_message t]; conversationHistory := VArr [] |}.

Definition cleared_session (date_now t : Z) : Hook :=
  {| messages := [cleared_message date_now t]; conversationHistory := VArr [] |}.

(** The argument the chat surface passes to [addMessage]
    (ChatBot.tsx): [{ content, sender }]. *)
Inductive Sender := user | bot.

Definition sender_string (s : Sender) : string :=
  match s with user => "user" | bot => "bot" end.

Definition message_of (content : string) (sender : Sender) : val :=
  VObj [("content", VStr content); ("sender", VStr (sender_string sender))].

Section UseChat.
Context `{Host}.
Variable options : UseChatOptions.

Definition parse (s : string) : result val :=
  match JSON_parse s with Some v => Ok v | None => Throw SyntaxError end.

(** [msg => ({ ...msg, timestamp: new Date(msg.timestamp) })]
    (lines 25-28). *)
Definition restore_message (msg : val) : result val :=
  ts ← get_member "timestamp" msg;
  d ← new_Date ts;
  Ok (VObj (set_prop "timestamp" (VDate d) (own_props msg))).

(** The initialiser of [messages] (lines 20-40); [t] is the clock at
    [new Date()]. Only the parse and the mapping are inside [try]. *)
Definition init_messages (t : Z) (st : Storage) : result (list val) :=
  savedMessages ← getItem (messages_key options) st;
  Ok (match savedMessages with
      | Some s =>
          if decide (s = "") then [initial_message t]
          else try_catch (parsed ← parse s; array_map restore_message parsed)
                         [initial_message t]
      | None => [initial_message t]
      end).

(** The initialiser of [conversationHistory] (lines 42-52). *)
Definition init_conversation (st : Storage) : result val :=
  savedHistory ← getItem (conversation_key options) st;
  Ok (match savedHistory with
      | Some s =>
          if decide (s = "") then VArr []
          else try_catch (parse s) (VArr [])
      | None => VArr []
      end).

(** The first call of [useChat], which the specification calls
    [initialize]: both initialisers run. *)
Definition initialize (t : Z) (st : Storage) : result Hook :=
  m ← init_messages t st;
  c ← init_conversation st;
  Ok {| messages := m; conversationHistory := c |}.

(** The two persistence effects (lines 55-62). *)
Definition persist_messages (h : Hook) (st : Storage) : result Storage :=
  setItem (messages_key options) (JSON_stringify (VArr (messages h))) st.

Definition persist_conversation (h : Hook) (st : Storage) : result Storage :=
  setItem (conversation_key options) (JSON_stringify (conversationHistory h)) st.

(** After a render in which both pieces of state changed (the first
    render, and the one after [clearChat]) both effects run, in the order
    of their declaration. *)
Definition persist (h : Hook) (st : Storage) : result Storage :=
  st' ← persist_messages h st;
  persist_conversation h st'.

(** [addMessage] (lines 64-81): the Message it builds and returns... *)
Definition newMessage (message : val) (e : Env) : val :=
  VObj (set_prop "timestamp" (VDate (TimeValue (now e)))
         (set_prop "id" (VStr (pretty (Date_now e) +:+ random e))
           (own_props message))).

(** ... and the state update it queues (lines 71-78). *)
Definition append_message (m : val) (prev : list val) : list val :=
  let updated := prev ++ [m] in
  if decide (maxHistoryLength options < Z.of_nat (length updated))%Z
  then slice (- maxHistoryLength options) updated
  else updated.

Definition addMessage (message : val) (e : Env) (h : Hook) : val * Hook :=
  let m := newMessage message e in
  (m, {| messages := append_message m (messages h);
         conversationHistory := conversationHistory h |}).

(** [updateConversationHistory] (lines 83-99): the state update it
    queues. Spreading [prev] throws when [prev] is not iterable. *)
Definition append_exchange (userMessage botResponse : string) (prev : val)
  : result val :=
  xs ← iterate prev;
  let updated :=
    xs ++ [exchange "user" userMessage; exchange "assistant" botResponse] in
  let maxExchanges := (maxHistoryLength options `div` 2)%Z in
  Ok (VArr (if decide (maxExchanges * 2 < Z.of_nat (length updated))%Z
            then slice (- maxExchanges * 2) updated
            else updated)).

Definition updateConversationHistory (userMessage botResponse : string)
    (h : Hook) : result Hook :=
  c ← append_exchange userMessage botResponse (conversationHistory h);
  Ok {| messages := messages h; conversationHistory := c |}.

(** [clearChat] (lines 101-113). The two state updates are queued before
    storage is touched, so the new state is there whether or not the two
    [removeItem] calls return. *)
Definition clearChat (date_now t : Z) (st : Storage) : Hook * result Storage :=
  (cleared_session date_now t,
   st' ← removeItem (messages_key options) st;
   removeItem (conversation_key options) st').

(** *** Sequences of calls *)

Definition addMessages (calls : list (val * Env)) (prev : list val)
  : list val :=
  foldl (λ l c, append_message (newMessage c.1 c.2) l) prev calls.

Fixpoint updateConversations (calls : list (string * string)) (prev : val)
  : result val :=
  match calls with
  | [] => Ok prev
  | (u, b) :: calls =>
      c ← append_exchange u b prev; updateConversations calls c
  end.

(** *** Sessions the chat surface can reach

    One call of the chat surface, the state update it causes, and the
    sessions reached from a fresh one by such calls and by reloads that
    restore what was persisted. *)

Inductive call :=
| AddMessage (content : string) (sender : Sender) (e : Env)
| UpdateConversationHistory (userMessage botResponse : string)
| ClearChat (date_now t : Z).

Definition step (c : call) (h : Hook) : result Hook :=
  match c with
  | AddMessage content sender e =>
      Ok (addMessage (message_of content sender) e h).2
  | UpdateConversationHistory userMessage botResponse =>
      updateConversationHistory userMessage botResponse h
  | ClearChat date_now t => Ok (cleared_session date_now t)
  end.

Fixpoint steps (cs : list call) (h : Hook) : result Hook :=
  match cs with
  | [] => Ok h
  | c :: cs => h' ← step c h; steps cs h'
  end.

(** *** An operation followed by the render it causes

    The outcome of a call as its caller sees it, and what the render that
    follows leaves in storage.  An exception in an effect or in a state
    update is raised inside React, not to the caller of the operation. *)

Definition addMessage_then_render (message : val) (e : Env)
    (h : Hook) (st : Storage) : val * Hook * result Storage :=
  let '(m, h') := addMessage message e h in
  (m, h', persist_messages h' st).

Definition updateConversationHistory_then_render
    (userMessage botResponse : string) (h : Hook) (st : Storage)
  : result (Hook * result Storage) :=
  h' ← updateConversationHistory userMessage botResponse h;
  Ok (h', persist_conversation h' st).

Definition clearChat_then_render (date_now t : Z) (st : Storage)
  : Hook * result Storage :=
  let '(h', r) := clearChat date_now t st in
  (h', st' ← r; persist h' st').
End UseChat.

(** ** A reference host

    An executable instance of [Host] on a fragment of the built-ins: JSON
    texts whose numbers are integers and whose strings are ASCII, and date
    strings in the full format that [toISOString] writes.  Outside the
    fragment [JSON_parse] and [Date_parse] answer [None], where an engine
    may read more.  It is used to run the hook on concrete storage
    contents. *)
Module Reference.

Definition dquote : ascii := "034"%char.
Definition backslash : ascii := "092"%char.

Definition hex_digit (n : N) : ascii :=
  match n with
  | 0 => "0" | 1 => "1" | 2 => "2" | 3 => "3" | 4 => "4" | 5 => "5"
  | 6 => "6" | 7 => "7" | 8 => "8" | 9 => "9" | 10 => "a" | 11 => "b"
  | 12 => "c" | 13 => "d" | 14 => "e" | _ => "f"
  end%char%N.

(** *** Writing JSON *)

Definition escape_char (c : ascii) : string :=
  if decide (c = dquote) then String backslash (String dquote "")
  else if decide (c = backslash) then String backslash (String backslash "")
  else match N_of_ascii c with
       | 8 => String backslash "b"
       | 9 => String backslash "t"
       | 10 => String backslash "n"
       | 12 => String backslash "f"
       | 13 => String backslash "r"
       | n => if decide (n < 32)%N
              then String backslash ("u00" +:+
                     String (hex_digit (n `div` 16)) (String (hex_digit (n `mod` 16)) ""))
              else String c ""
       end%N.

Fixpoint escape (s : string) : string :=
  match s with
  | EmptyString => ""
  | String c s => escape_char c +:+ escape s
  end.

Definition quote (s : string) : string :=
  String dquote (escape s +:+ String dquote "").

Fixpoint join (sep : string) (l : list string) : string :=
  match l with
  | [] => ""
  | [x] => x
  | x :: l => x +:+ sep +:+ join sep l
  end.

Fixpoint text (v : val) : string :=
  match v with
  | VBool true => "true"
  | VBool false => "false"
  | VNum n => pretty n
  | VStr s => quote s
  | VArr xs => "[" +:+ join "," (map text xs) +:+ "]"
  | VObj ps =>
      "{" +:+ join "," (map (λ p, match p with
                                  | (k, x) => quote k +:+ ":" +:+ text x
                                  end) ps) +:+ "}"
  | VNull | VUndefined | VDate _ => "null"
  end.

(** *** Reading JSON *)

Fixpoint skip_ws (s : string) : string :=
  match s with
  | String c s' =>
      if bool_decide (c = " "%char ∨ c = "009"%char ∨ c = "010"%char ∨ c = "013"%char)
      then skip_ws s' else s
  | EmptyString => s
  end.

Fixpoint expect (lit s : string) : option string :=
  match lit, s with
  | EmptyString, _ => Some s
  | String a lit, String b s => if decide (a = b) then expect lit s else None
  | _, _ => None
  end.

Definition digit_of (c : ascii) : option Z :=
  let n := N_of_ascii c in
  if decide (48 ≤ n ≤ 57)%N then Some (Z.of_N n - 48)%Z else None.

Definition hex_of (c : ascii) : option N :=
  let n := N_of_ascii c in
  if decide (48 ≤ n ≤ 57)%N then Some (n - 48)%N
  else if decide (97 ≤ n ≤ 102)%N then Some (n - 87)%N
  else if decide (65 ≤ n ≤ 70)%N then Some (n - 55)%N
  else None.

Fixpoint digits (acc : Z) (s : string) : Z * string :=
  match s with
  | String c s' =>
      match digit_of c with
      | Some d => digits (acc * 10 + d)%Z s'
      | None => (acc, s)
      end
  | EmptyString => (acc, s)
  end.

(** An integer literal; a fraction or an exponent leaves the fragment. *)
Definition parse_int (s : string) : option (Z * string) :=
  let '(neg, s) := match s with
                   | String "-"%char s' => (true, s')
                   | _ => (false, s)
                   end in
  match s with
  | String c s' =>
      match digit_of c with
      | Some d =>
          let '(n, rest) := if decide (d = 0%Z) then (0%Z, s') else digits d s' in
          match rest with
          | String c' _ =>
              if bool_decide (c' = "."%char ∨ c' = "e"%char ∨ c' = "E"%char
                              ∨ is_Some (digit_of c'))
              then None
              else Some (if neg then (- n)%Z else n, rest)
          | EmptyString => Some (if neg then (- n)%Z else n, rest)
          end
      | None => None
      end
  | EmptyString => None
  end.

Definition unescape (c : ascii) : option ascii :=
  if decide (c = dquote) then Some dquote
  else if decide (c = backslash) then Some backslash
  else match c with
       | "/" => Some "/" | "b" => Some "008" | "t" => Some "009"
       | "n" => Some "010" | "f" => Some "012" | "r" => Some "013"
       | _ => None
       end%char.

(** The characters of a string literal after its opening quote. *)
Fixpoint parse_chars (s : string) : option (string * string) :=
  match s with
  | EmptyString => None
  | String c s' =>
      if decide (c = dquote) then Some ("", s')
      else if decide (c = backslash) then
        match s' with
        | String "u"%char (String a (String b (String c1 (String c2 s'')))) =>
            match hex_of a, hex_of b, hex_of c1, hex_of c2 with
            | Some 0%N, Some 0%N, Some h, Some l =>
                if decide (h < 8)%N then
                  '(r, rest) ← parse_chars s'';
                  Some (String (ascii_of_N (h * 16 + l)) r, rest)
                else None
            | _, _, _, _ => None
            end
        | String e s'' =>
            u ← unescape e;
            '(r, rest) ← parse_chars s'';
            Some (String u r, rest)
        | EmptyString => None
        end
      else if decide (N_of_ascii c < 32)%N then None
      else '(r, rest) ← parse_chars s'; Some (String c r, rest)
  end.

Definition parse_string (s : string) : option (string * string) :=
  match s with
  | String c s' => if decide (c = dquote) then parse_chars s' else None
  | EmptyString => None
  end.

Section Compound.
Variable parse_value : string → option (val * string).

(** Elements after [[]: [n] bounds their number. *)
Fixpoint parse_elements (n : nat) (s : string) : option (list val * string) :=
  match n with
  | O => None
  | S n =>
      '(v, rest) ← parse_value s;
      match skip_ws rest with
      | String ","%char rest' =>
          '(vs, rest'') ← parse_elements n rest'; Some (v :: vs, rest'')
      | String "]"%char rest' => Some ([v], rest')
      | _ => None
      end
  end.

(** Members after [{]; a repeated key keeps its place and takes the
    last value. *)
Fixpoint parse_members (n : nat) (acc : list (string * val)) (s : string)
  : option (list (string * val) * string) :=
  match n with
  | O => None
  | S n =>
      '(k, rest) ← parse_string (skip_ws s);
      match skip_ws rest with
      | String ":"%char rest' =>
          '(v, rest'') ← parse_value rest';
          let acc := set_prop k v acc in
          match skip_ws rest'' with
          | String ","%char r => parse_members n acc r
          | String "}"%char r => Some (acc, r)
          | _ => None
          end
      | _ => None
      end
  end.
End Compound.

Fixpoint parse_value (fuel : nat) (s : string) : option (val * string) :=
  match fuel with
  | O => None
  | S fuel =>
      let s := skip_ws s in
      match s with
      | String "n"%char _ => r ← expect "null" s; Some (VNull, r)
      | String "t"%char _ => r ← expect "true" s; Some (VBool true, r)
      | String "f"%char _ => r ← expect "false" s; Some (VBool false, r)
      | String "["%char rest =>
          match skip_ws rest with
          | String "]"%char r => Some (VArr [], r)
          | _ =>
              '(vs, r) ← parse_elements (parse_value fuel) (String.length rest) rest;
              Some (VArr vs, r)
          end
      | String "{"%char rest =>
          match skip_ws rest with
          | String "}"%char r => Some (VObj [], r)
          | _ =>
              '(ps, r) ← parse_members (parse_value fuel) (String.length rest) [] rest;
              Some (VObj ps, r)
          end
      | String c _ =>
          if decide (c = dquote) then '(x, r) ← parse_string s; Some (VStr x, r)
          else '(n, r) ← parse_int s; Some (VNum n, r)
      | EmptyString => None
      end
  end.

Definition parse (s : string) : option val :=
  '(v, rest) ← parse_value (S (String.length s)) s;
  match skip_ws rest with
  | EmptyString => Some v
  | _ => None
  end.
End Reference.

Module ReferenceDate.
Import Reference.

Definition ms_per_day : Z := 86400000.

(** Civil date of a day number (days since 1970-01-01), proleptic
    Gregorian calendar. *)
Definition civil_of_days (z : Z) : Z * Z * Z :=
  let z := (z + 719468)%Z in
  let era := (z `div` 146097)%Z in
  let doe := (z - era * 146097)%Z in
  let yoe := ((doe - doe `div` 1460 + doe `div` 36524 - doe `div` 146096) `div` 365)%Z in
  let doy := (doe - (365 * yoe + yoe `div` 4 - yoe `div` 100))%Z in
  let mp := ((5 * doy + 2) `div` 153)%Z in
  let d := (doy - (153 * mp + 2) `div` 5 + 1)%Z in
  let m := (if decide (mp < 10) then mp + 3 else mp - 9)%Z in
  let y := (yoe + era * 400 + (if decide (m ≤ 2) then 1 else 0))%Z in
  (y, m, d).

Definition days_of_civil (y m d : Z) : Z :=
  let y := (if decide (m ≤ 2) then y - 1 else y)%Z in
  let era := (y `div` 400)%Z in
  let yoe := (y - era * 400)%Z in
  let mp := (if decide (m ≤ 2) then m + 9 else m - 3)%Z in
  let doy := ((153 * mp + 2) `div` 5 + d - 1)%Z in
  let doe := (yoe * 365 + yoe `div` 4 - yoe `div` 100 + doy)%Z in
  (era * 146097 + doe - 719468)%Z.

Fixpoint zeros (n : nat) : string :=
  match n with O => "" | S n => String "0" (zeros n) end.

(** [n] in decimal, left-padded with zeros to [w] digits; [n] is not
    negative. *)
Definition pad (w : nat) (n : Z) : string :=
  let s := pretty n in zeros (w - String.length s) +:+ s.

Definition year_string (y : Z) : string :=
  if decide (0 ≤ y ≤ 9999)%Z then pad 4 y
  else if decide (y < 0)%Z then "-" +:+ pad 6 (- y)
  else "+" +:+ pad 6 y.

Definition iso (t : Z) : string :=
  let day := (t `div` ms_per_day)%Z in
  let ms := (t `mod` ms_per_day)%Z in
  let '(y, m, d) := civil_of_days day in
  year_string y +:+ "-" +:+ pad 2 m +:+ "-" +:+ pad 2 d +:+ "T"
    +:+ pad 2 (ms `div` 3600000) +:+ ":"
    +:+ pad 2 ((ms `div` 60000) `mod` 60) +:+ ":"
    +:+ pad 2 ((ms `div` 1000) `mod` 60) +:+ "."
    +:+ pad 3 (ms `mod` 1000) +:+ "Z".

(** Exactly [w] decimal digits. *)
Fixpoint fixed_digits (w : nat) (acc : Z) (s : string) : option (Z * string) :=
  match w with
  | O => Some (acc, s)
  | S w =>
      match s with
      | String c s' => d ← digit_of c; fixed_digits w (acc * 10 + d)%Z s'
      | EmptyString => None
      end
  end.

Definition read_year (s : string) : option (Z * string) :=
  match s with
  | String "+"%char s' => fixed_digits 6 0 s'
  | String "-"%char s' =>
      '(y, r) ← fixed_digits 6 0 s';
      if decide (y = 0%Z) then None else Some ((- y)%Z, r)
  | _ => fixed_digits 4 0 s
  end.

Definition field (w : nat) (sep : string) (s : string) : option (Z * string) :=
  '(n, r) ← fixed_digits w 0 s;
  r' ← expect sep r;
  Some (n, r').

(** Reads the full format [YYYY-MM-DDTHH:mm:ss.sssZ] and checks it by
    writing the result back. *)
Definition read_iso (s : string) : option Z :=
  '(y, s) ← read_year s;
  s ← expect "-" s;
  '(m, s) ← field 2 "-" s;
  '(d, s) ← field 2 "T" s;
  '(hh, s) ← field 2 ":" s;
  '(mm, s) ← field 2 ":" s;
  '(ss, s) ← field 2 "." s;
  '(ms, s) ← field 3 "Z" s;
  match s with
  | EmptyString =>
      let t := (days_of_civil y m d * ms_per_day
                + hh * 3600000 + mm * 60000 + ss * 1000 + ms)%Z in
      if decide (Z.abs t ≤ 8640000000000000)%Z then
        if decide (1 ≤ m ≤ 12 ∧ 1 ≤ d ∧ hh ≤ 24 ∧ mm ≤ 59 ∧ ss ≤ 59)%Z
        then if decide (hh = 24 ∧ ¬ (mm = 0 ∧ ss = 0 ∧ ms = 0))%Z then None
             else if decide ((civil_of_days (days_of_civil y m d)) = (y, m, d))
                  then Some t else None
        else None
      else None
  | _ => None
  end.

Definition primitive_string (v : val) : option string :=
  match v with
  | VUndefined | VNull => Some ""
  | VBool true => Some "true"
  | VBool false => Some "false"
  | VNum n => Some (pretty n)
  | VStr s => Some s
  | _ => None
  end.

(** [new Date(o)]: an array of primitives converts to its elements joined
    by commas; an object converts to a string that is no date, unless an
    own [toString] property hides the method, in which case the
    conversion throws. *)
Definition date_of_object (v : val) : result Date :=
  match v with
  | VArr xs =>
      match mapM primitive_string xs with
      | Some l =>
          Ok (match read_iso (join "," l) with
              | Some t => TimeValue t
              | None => InvalidDate
              end)
      | None => Ok InvalidDate
      end
  | VObj ps =>
      match get_prop "toString" ps with
      | VUndefined => Ok InvalidDate
      | _ => Throw TypeError
      end
  | _ => Ok InvalidDate
  end.
End ReferenceDate.

Definition reference_host : Host := {|
  JSON_parse := Reference.parse;
  JSON_text := Reference.text;
  toISOString := ReferenceDate.iso;
  Date_parse := ReferenceDate.read_iso;
  Date_of_object := ReferenceDate.date_of_object;
|}.

(** ** Notions used by the statements *)

(** The newest [n] entries of a log, oldest first. *)
Definition newest {A} (n : nat) (l : list A) : list A :=
  drop (length l - n) l.

(** The Messages created by a sequence of [addMessage] calls, in call
    order. *)
Definition created (calls : list (val * Env)) : list val :=
  (λ c, newMessage c.1 c.2) <$> calls.

(** The two Exchange entries of one call of [updateConversationHistory],
    and those of a sequence of calls, in call order. *)
Definition new_pair (u b : string) : list val :=
  [exchange "user" u; exchange "assistant" b].

Definition pairs (calls : list (string * string)) : list val :=
  calls ≫= λ c, new_pair c.1 c.2.

(** The property [k] of an object. *)
Definition prop_of (k : string) (v : val) : val :=
  match v with VObj ps => get_prop k ps | _ => VUndefined end.

Definition with_cap (o : UseChatOptions) (cap : Z) : UseChatOptions :=
  {| storageKey := storageKey o; maxHistoryLength := cap |}.

(** The identifier [addMessage] builds. *)
Definition new_id (e : Env) : string := pretty (Date_now e) +:+ random e.

Definition is_digit (c : ascii) : Prop := (48 ≤ N_of_ascii c ≤ 57)%N.

(** *** Well-formed sessions *)

Definition primitive (v : val) : bool :=
  match v with
  | VNull | VBool _ | VNum _ | VStr _ => true
  | _ => false
  end.

Definition message_prop (p : string * val) : bool :=
  if decide (p.1 = "timestamp")
  then match p.2 with VDate _ => true | _ => false end
  else primitive p.2.

(** A Message as the hook builds it: an object whose [timestamp] is a
    [Date] and whose other properties ([id], [content], [sender],
    [isLoading]) are primitive values. *)
Definition is_message (v : val) : bool :=
  match v with
  | VObj ps =>
      bool_decide (NoDup ps.*1)
      && bool_decide ("timestamp" ∈ ps.*1)
      && forallb message_prop ps
  | _ => false
  end.

(** An Exchange entry: [{ role, content }] with two strings. *)
Definition is_exchange (v : val) : bool :=
  match v with
  | VObj [("role", VStr _); ("content", VStr _)] => true
  | _ => false
  end.

(** The time value a persisted timestamp comes back with: an invalid date
    is written as [null], and [new Date(null)] is the epoch. *)
Definition revive_date (d : Date) : Date :=
  match d with TimeValue t => TimeValue t | InvalidDate => TimeValue 0 end.

Definition revived (v : val) : val :=
  match v with
  | VObj ps =>
      match get_prop "timestamp" ps with
      | VDate d => VObj (set_prop "timestamp" (VDate (revive_date d)) ps)
      | _ => v
      end
  | _ => v
  end.

(** A session restored from what was persisted: every timestamp has gone
    through its ISO string. *)
Definition reloaded (h : Hook) : Hook :=
  {| messages := revived <$> messages h;
     conversationHistory := conversationHistory h |}.

Inductive reachable (o : UseChatOptions) : Hook → Prop :=
| reachable_fresh t : reachable o (fresh_session t)
| reachable_step c h h' : reachable o h → step o c h = Ok h' → reachable o h'
| reachable_reload h : reachable o h → reachable o (reloaded h).

Definition well_formed (h : Hook) : Prop :=
  forallb is_message (messages h) = true
  ∧ ∃ es, conversationHistory h = VArr es ∧ forallb is_exchange es = true.

(** *** What the host is expected to read back *)

Section HostAssumptions.
Context `{Host}.

Definition jsonify_prop (p : string * val) : string * val := (p.1, jsonify p.2).

(** [JSON.parse] reads the text of [v] back as [v]; the text is not
    empty. *)
Definition reads_back (v : val) : Prop :=
  JSON_text v ≠ "" ∧ JSON_parse (JSON_text v) = Some v.

(** [Date.parse] inverts [toISOString] on the timestamp of [v]. *)
Definition date_reads_back (v : val) : Prop :=
  ∀ t, prop_of "timestamp" v = VDate (TimeValue t) →
       Date_parse (toISOString t) = Some t.


End HostAssumptions.

(** *** Concrete sessions and storages *)

(** Storage that holds the given entries and accepts every operation. *)
Definition storage_of (l : list (string * string)) : Storage :=
  {| items := list_to_map l; accessible := true; quota := None |}.

(** Storage the page may not touch. *)
Definition locked_storage : Storage :=
  {| items := ∅; accessible := false; quota := None |}.

Definition fresh_hook : Hook := fresh_session 0.

Definition hi_from_user : val := message_of "Hi" user.

Definition same_draw : Env :=
  {| Date_now := 1700000000000; random := "k3x9q0zab"; now := 1700000000000 |}.

Definition example_session : Hook :=
  {| messages :=
       [initial_message 1700000000000;
        newMessage hi_from_user
          {| Date_now := 1700000001000; random := "k3x9q0zab"; now := 1700000001001 |};
        newMessage (message_of "Hello!" bot)
          {| Date_now := 1700000002000; random := "7f0c2mmq1"; now := 1700000002000 |}];
     conversationHistory := VArr (pairs [("Hi", "Hello!")]) |}.

(** ** The hook with its storage

    The first render followed by its effects, and a call of the chat
    surface followed by the render it causes: the effect of each piece of
    state that changed runs. *)

Section Rendered.
Context `{Host}.
Variable options : UseChatOptions.

Definition mount (t : Z) (st : Storage) : result (Hook * Storage) :=
  h ← initialize options t st;
  st' ← persist options h st;
  Ok (h, st').

Definition step_then_render (c : call) (hs : Hook * Storage)
  : result (Hook * Storage) :=
  match c with
  | AddMessage content sender e =>
      let h' := (addMessage options (message_of content sender) e hs.1).2 in
      st' ← persist_messages options h' hs.2;
      Ok (h', st')
  | UpdateConversationHistory userMessage botResponse =>
      '(h', r) ← updateConversationHistory_then_render options
                   userMessage botResponse hs.1 hs.2;
      st' ← r;
      Ok (h', st')
  | ClearChat date_now t =>
      st' ← (clearChat_then_render options date_now t hs.2).2;
      Ok ((clearChat_then_render options date_now t hs.2).1, st')
  end.

Fixpoint steps_then_render (cs : list call) (hs : Hook * Storage)
  : result (Hook * Storage) :=
  match cs with
  | [] => Ok hs
  | c :: cs => hs' ← step_then_render c hs; steps_then_render cs hs'
  end.
End Rendered.

(** ** The chat surface (components/ChatBot.tsx) *)

(** The component's own state (lines 24-27). *)
Record ChatBot := {
  isOpen : bool;
  inputValue : string;
  isTyping : bool;
  error : option string;
}.

Definition setError (x : option string) (c : ChatBot) : ChatBot :=
  {| isOpen := isOpen c; inputValue := inputValue c;
     isTyping := isTyping c; error := x |}.

Definition setInputValue (x : string) (c : ChatBot) : ChatBot :=
  {| isOpen := isOpen c; inputValue := x;
     isTyping := isTyping c; error := error c |}.

Definition setIsTyping (x : bool) (c : ChatBot) : ChatBot :=
  {| isOpen := isOpen c; inputValue := inputValue c;
     isTyping := x; error := error c |}.

(** What the awaited request to the chat service comes to: a response with
    its [success] flag and its text ([message] or [advice]), or a rejected
    promise. *)
Inductive outcome :=
| Resolved (success : bool) (text : string)
| Rejected.

(** [Array.prototype.join] on strings. *)
Fixpoint Array_join (sep : string) (l : list string) : string :=
  match l with
  | [] => ""
  | [x] => x
  | x :: l => x +:+ sep +:+ Array_join sep l
  end.

Fixpoint starts_with (p s : string) : bool :=
  match p, s with
  | EmptyString, _ => true
  | String a p, String b s => bool_decide (a = b) && starts_with p s
  | _, _ => false
  end.

(** [String.prototype.includes]. *)
Fixpoint includes (needle hay : string) : bool :=
  starts_with needle hay
  || match hay with
     | String _ hay => includes needle hay
     | EmptyString => false
     end.

(** [Array.prototype.slice(start, end)]. *)
Definition slice_to {A} (start fin : Z) (l : list A) : list A :=
  let len := Z.of_nat (length l) in
  let k := if (start <? 0)%Z then Z.max (len + start) 0 else Z.min start len in
  let final := if (fin <? 0)%Z then Z.max (len + fin) 0 else Z.min fin len in
  take (Z.to_nat (Z.max (final - k) 0)) (drop (Z.to_nat k) l).

Definition open_welcome : string :=
  "Hello! I'm SkinTel AI, your personal skincare assistant. I'm here to help you with skincare advice, product recommendations, and answer any questions about your skin analysis results. How can I help you with your skincare today?".

Definition send_apology : string :=
  "I'm having trouble connecting right now. Please make sure you're logged in and try again.".

Definition advice_apology : string :=
  "I'm having trouble analyzing your skin concerns right now. Please try asking me a general skincare question instead.".

(** The user Message of [handleAnalysisAdvice] (line 162). *)
Definition advice_question (concerns : list string) : string :=
  "I've completed my skin analysis and these concerns were detected: "
    +:+ Array_join ", " concerns +:+ ". What should I do?".

Section ChatSurface.
Context `{Host}.
Variable options : UseChatOptions.
(** [String.prototype.trim] and [String.prototype.toLowerCase], built-ins
    of the host. *)
Variable trim : string → string.
Variable toLowerCase : string → string.

(** The effect of lines 39-44: an open chat with no Message gets a
    welcome. *)
Definition open_effect (e : Env) (c : ChatBot) (h : Hook) : Hook :=
  if isOpen c && bool_decide (length (messages h) = 0)
  then (addMessage options (message_of open_welcome bot) e h).2
  else h.

(** [handleSendMessage] (lines 185-218) up to the [await]: the new state,
    and the text and the history of the request, if one is made. *)
Definition handleSendMessage_request (isAuthenticated : bool) (e : Env)
    (c : ChatBot) (h : Hook) : ChatBot * Hook * option (string * val) :=
  if negb isAuthenticated
  then (setError (Some "Please log in to chat with the AI assistant.") c, h, None)
  else
    let text := trim (inputValue c) in
    if decide (text = "") then (c, h, None)
    else (setIsTyping true (setInputValue "" (setError None c)),
          (addMessage options (message_of text user) e h).2,
          Some (text, conversationHistory h)).

(** [handleSendMessage] from the [await] on; the state updates apply to
    the session as it is then. *)
Definition handleSendMessage_response (text : string) (r : outcome) (e : Env)
    (c : ChatBot) (h : Hook) : result (ChatBot * Hook) :=
  match r with
  | Resolved true message =>
      h' ← updateConversationHistory options text message
             (addMessage options (message_of message bot) e h).2;
      Ok (setIsTyping false c, h')
  | _ =>
      Ok (setIsTyping false
            (setError (Some "Failed to send message. Please check your connection and try again.") c),
          (addMessage options (message_of send_apology bot) e h).2)
  end.

(** [handleAnalysisAdvice] (lines 152-183), in the same two parts. *)
Definition handleAnalysisAdvice_request (isAuthenticated : bool)
    (concerns : list string) (e : Env) (c : ChatBot) (h : Hook)
  : ChatBot * Hook * option string :=
  if negb isAuthenticated
  then (setError (Some "Please log in to get personalized skin advice.") c, h, None)
  else (setIsTyping true (setError None c),
        (addMessage options (message_of (advice_question concerns) user) e h).2,
        Some (advice_question concerns)).

Definition handleAnalysisAdvice_response (userMessage : string) (r : outcome)
    (e : Env) (c : ChatBot) (h : Hook) : result (ChatBot * Hook) :=
  match r with
  | Resolved true advice =>
      h' ← updateConversationHistory options userMessage advice
             (addMessage options (message_of advice bot) e h).2;
      Ok (setIsTyping false c, h')
  | _ =>
      Ok (setIsTyping false
            (setError (Some "Failed to get analysis-based advice. You can still ask general skincare questions.") c),
          (addMessage options (message_of advice_apology bot) e h).2)
  end.

(** [handleClearChat] (lines 224-227): [setError] is reached only when
    [clearChat] has returned. *)
Definition handleClearChat (date_now t : Z) (c : ChatBot) (st : Storage)
  : ChatBot * Hook * result Storage :=
  let '(h', r) := clearChat options date_now t st in
  (match r with Ok _ => setError None c | Throw _ => c end, h', r).

(** What the user does, each handler run to its end before the next
    starts: typing a text and sending it, asking for advice on an
    analysis, clearing the chat. *)
Inductive chat_event :=
| SendMessage (input : string) (e1 : Env) (r : outcome) (e2 : Env)
| AnalysisAdvice (concerns : list string) (e1 : Env) (r : outcome) (e2 : Env)
| ClearChatClicked (date_now t : Z).

Definition chat_step (isAuthenticated : bool) (ev : chat_event)
    (ch : ChatBot * Hook) : result (ChatBot * Hook) :=
  match ev with
  | SendMessage input e1 r e2 =>
      match handleSendMessage_request isAuthenticated e1
              (setInputValue input ch.1) ch.2 with
      | (c, h, Some (text, _)) => handleSendMessage_response text r e2 c h
      | (c, h, None) => Ok (c, h)
      end
  | AnalysisAdvice concerns e1 r e2 =>
      match handleAnalysisAdvice_request isAuthenticated concerns e1 ch.1 ch.2 with
      | (c, h, Some userMessage) =>
          handleAnalysisAdvice_response userMessage r e2 c h
      | (c, h, None) => Ok (c, h)
      end
  | ClearChatClicked date_now t =>
      Ok (setError None ch.1, cleared_session date_now t)
  end.

Fixpoint chat_steps (isAuthenticated : bool) (evs : list chat_event)
    (ch : ChatBot * Hook) : result (ChatBot * Hook) :=
  match evs with
  | [] => Ok ch
  | ev :: evs => ch' ← chat_step isAuthenticated ev ch;
                 chat_steps isAuthenticated evs ch'
  end.

(** The question and the answer of an event that got its answer. *)
Definition answered (isAuthenticated : bool) (ev : chat_event)
  : option (string * string) :=
  if negb isAuthenticated then None
  else match ev with
       | SendMessage input _ (Resolved true message) _ =>
           if decide (trim input = "") then None else Some (trim input, message)
       | AnalysisAdvice concerns _ (Resolved true advice) _ =>
           Some (advice_question concerns, advice)
       | _ => None
       end.

(** The answered questions since the chat was last cleared. *)
Definition answered_since_clear (isAuthenticated : bool) (evs : list chat_event)
  : list (string * string) :=
  foldl (λ acc ev,
           match ev with
           | ClearChatClicked _ _ => []
           | _ => acc ++ option_list (answered isAuthenticated ev)
           end) [] evs.

(** [getQuickActions] (lines 233-266); [analysisResult] is given by its
    [predicted_concerns], when there is one. *)
Definition mentions (keyword : string) (concerns : list string) : bool :=
  existsb (λ c, includes keyword (toLowerCase c)) concerns.

Definition getQuickActions (analysisResult : option (list string)) : list string :=
  match analysisResult with
  | Some concerns =>
      if bool_decide (0 < length concerns) then
        let actions := [] in
        let actions := if mentions "acne" concerns
                       then actions ++ ["How do I treat acne naturally?"]
                       else actions in
        let actions := if mentions "dry" concerns
                       then actions ++ ["What's the best moisturizer for dry skin?"]
                       else actions in
        let actions := if mentions "oily" concerns
                       then actions ++ ["How to control oily skin?"]
                       else actions in
        let actions := if mentions "dark" concerns
                       then actions ++ ["How to reduce dark spots?"]
                       else actions in
        let actions := actions ++ ["What products should I avoid?"] in
        let actions := actions ++ ["Create a skincare routine for me"] in
        slice_to 0 4 actions
      else ["What's a good basic skincare routine?";
            "How often should I use retinol?";
            "What ingredients should I avoid?";
            "How do I treat sensitive skin?"]
  | None => ["What's a good basic skincare routine?";
             "How often should I use retinol?";
             "What ingredients should I avoid?";
             "How do I treat sensitive skin?"]
  end.
End ChatSurface.

(** ** The API layer (services/api.ts) *)

Definition API_BASE_URL : string := "http://localhost:8000".

Section Api.
Context `{Host}.

(** [authService.logout] (lines 204-207). *)
Definition logout (st : Storage) : result Storage :=
  st' ← removeItem "token" st;
  removeItem "user" st'.

(** [authService.getCurrentUser] (lines 209-212): the parse is not
    guarded. *)
Definition getCurrentUser (st : Storage) : result val :=
  userStr ← getItem "user" st;
  match userStr with
  | Some s => if decide (s = "") then Ok VNull else parse s
  | None => Ok VNull
  end.

(** [authService.isAuthenticated] (lines 214-216). *)
Definition isAuthenticated (st : Storage) : result bool :=
  token ← getItem "token" st;
  Ok (match token with
      | Some s => bool_decide (s ≠ "")
      | None => false
      end).

(** [authService.login] (lines 189-193) from the response on;
    [access_token] is the string that [setItem] stores for the field of
    that name. *)
Definition login_response (access_token : string) (user : val) (st : Storage)
  : result Storage :=
  st' ← setItem "token" access_token st;
  setItem "user" (JSON_stringify user) st'.

(** The request interceptor (lines 14-20), on the headers of the
    request. *)
Definition request_interceptor (st : Storage) (headers : gmap string string)
  : result (gmap string string) :=
  token ← getItem "token" st;
  Ok (match token with
      | Some t => if decide (t = "") then headers
                  else <["Authorization" := "Bearer " +:+ t]> headers
      | None => headers
      end).

(** The error handler of the response interceptor (lines 25-32):
    [status] is [error.response?.status], [href] the location of the
    window; the error is rejected again in every case. *)
Definition response_error_interceptor (status : option Z)
    (st : Storage) (href : string) : result (Storage * string) :=
  if decide (status = Some 401%Z) then
    st' ← removeItem "token" st;
    st'' ← removeItem "user" st';
    Ok (st'', "/login")
  else Ok (st, href).
End Api.

(** [path.replace(/^\/?result-image\//, '')]: the pattern is anchored, so
    at most one leading occurrence goes. *)
Definition strip_result_image (path : string) : string :=
  if starts_with "/result-image/" path
  then String.substring 14 (String.length path - 14) path
  else if starts_with "result-image/" path
       then String.substring 13 (String.length path - 13) path
       else path.

(** [analysisService.getImageUrl] (lines 309-315); no path ([undefined])
    and the empty path are falsy. *)
Definition getImageUrl (path : option string) : string :=
  match path with
  | None => "/placeholder.svg"
  | Some path =>
      if decide (path = "") then "/placeholder.svg"
      else API_BASE_URL +:+ "/result-image/" +:+ strip_result_image path
  end.

(** [s.replace(/^\//, '')]. *)
Definition strip_leading_slash (s : string) : string :=
  match s with
  | String "/"%char s' => s'
  | _ => s
  end.

(** [annotatedImageUrl] of [AnalysisResults]
    (components/ProgressSummary.tsx, lines 187-189). *)
Definition annotatedImageUrl (annotated_image_url : string) : string :=
  if starts_with "http" annotated_image_url then annotated_image_url
  else getImageUrl (Some (strip_leading_slash annotated_image_url)).

(** *** Notions for the further properties *)

(** Storage holds the text of the two logs in memory. *)
Definition mirrors `{Host} (o : UseChatOptions) (h : Hook) (st : Storage) : Prop :=
  accessible st = true
  ∧ items st !! messages_key o = Some (JSON_stringify (VArr (messages h)))
  ∧ items st !! conversation_key o = Some (JSON_stringify (conversationHistory h)).

Fixpoint last_char (s : string) : option ascii :=
  match s with
  | EmptyString => None
  | String c EmptyString => Some c
  | String _ s => last_char s
  end.

(** How many of the four kinds of concern that [getQuickActions] looks
    for are mentioned. *)
Definition kinds (toLowerCase : string → string) (concerns : list string) : nat :=
  length (filter (λ k, mentions toLowerCase k concerns = true)
            ["acne"; "dry"; "oily"; "dark"]).

(** The text of the bot Message that ends a run of [handleSendMessage]. *)
Definition send_reply (r : outcome) : string :=
  match r with Resolved true message => message | _ => send_apology end.

Definition is_clear (ev : chat_event) : bool :=
  match ev with ClearChatClicked _ _ => true | _ => false end.

(** What the runs of the handlers keep true, for the answered questions
    [acc]: the Exchange log is made of the pairs of the latest of them, of
    all of them while they fit; every Message is well formed. *)
Definition answered_inv (o : UseChatOptions) (acc : list (string * string))
    (h : Hook) : Prop :=
  forallb is_message (messages h) = true
  ∧ ∃ kept, conversationHistory h = VArr (pairs kept)
            ∧ kept `suffix_of` acc
            ∧ ((Z.of_nat (length acc) ≤ maxHistoryLength o `div` 2)%Z → kept = acc).

(** * Properties *)

(** ** Results *)

Lemma bind_Ok {A B} (a : A) (f : A → result B) : Ok a ≫= f = f a.
Proof. done. Qed.

Lemma bind_Ok_inv {A B} (m : result A) (f : A → result B) (b : B) :
  m ≫= f = Ok b → ∃ a, m = Ok a ∧ f a = Ok b.
Proof. destruct m; [eauto|done]. Qed.

(** ** [slice] *)

Lemma slice_0 {A} (l : list A) : slice 0 l = l.
Proof. unfold slice. simpl. rewrite Z.min_l by lia. done. Qed.

Lemma slice_from_end {A} (c : Z) (l : list A) :
  (0 < c)%Z → slice (- c) l = newest (Z.to_nat c) l.
Proof.
  intros Hc. unfold slice, newest.
  destruct (Z.ltb_spec (- c) 0) as [_|?]; [|lia].
  f_equal. lia.
Qed.

Lemma slice_from_start {A} (c : Z) (l : list A) :
  (0 ≤ c)%Z → slice c l = drop (Z.to_nat c) l.
Proof.
  intros Hc. unfold slice.
  destruct (Z.ltb_spec c 0) as [?|_]; [lia|].
  destruct (decide (c ≤ Z.of_nat (length l))%Z).
  - by rewrite Z.min_l.
  - rewrite Z.min_r, Nat2Z.id by lia.
    rewrite !drop_ge; [done|lia..].
Qed.

(** ** [newest] *)

Lemma newest_all {A} (n : nat) (l : list A) : length l ≤ n → newest n l = l.
Proof. intros. unfold newest. by replace (length l - n) with 0 by lia. Qed.

Lemma length_newest {A} (n : nat) (l : list A) :
  length (newest n l) = n `min` length l.
Proof. unfold newest. rewrite length_drop. lia. Qed.

Lemma newest_app_r {A} (n : nat) (l k : list A) :
  n ≤ length k → newest n (l ++ k) = newest n k.
Proof.
  intros. unfold newest. rewrite length_app, drop_app.
  rewrite drop_ge by lia. simpl. f_equal. lia.
Qed.

Lemma newest_newest_app {A} (n : nat) (l k : list A) :
  newest n (newest n l ++ k) = newest n (l ++ k).
Proof.
  destruct (decide (length l ≤ n)) as [?|Hn].
  - by rewrite (newest_all n l).
  - rewrite <-(take_drop (length l - n) l) at 2.
    rewrite <-(assoc_L (++)). rewrite (newest_app_r n (take _ l)); [done|].
    rewrite length_app, length_drop. lia.
Qed.

(** ** The Message log under [addMessage] *)

Section MessageLog.
Variable o : UseChatOptions.
Let cap := maxHistoryLength o.

Lemma append_message_newest m prev :
  (1 ≤ cap)%Z →
  append_message o m prev = newest (Z.to_nat cap) (prev ++ [m]).
Proof.
  intros Hcap. unfold append_message. fold cap. case_decide as Hlen.
  - by apply slice_from_end; lia.
  - rewrite newest_all; [done|lia].
Qed.

Lemma addMessages_cons c calls prev :
  addMessages o (c :: calls) prev
  = addMessages o calls (append_message o (newMessage c.1 c.2) prev).
Proof. done. Qed.

Lemma addMessages_newest calls l :
  (1 ≤ cap)%Z →
  addMessages o calls (newest (Z.to_nat cap) l)
  = newest (Z.to_nat cap) (l ++ created calls).
Proof.
  intros Hcap. revert l. induction calls as [|c calls IH]; intros l.
  - simpl. by rewrite (right_id_L [] (++)).
  - rewrite addMessages_cons.
    rewrite append_message_newest, newest_newest_app by done.
    rewrite IH. by rewrite <-(assoc_L (++)).
Qed.

(** With a cap of at least one, after at least one call the log is the
    insertion-order sequence cut from the front to the cap. *)
Lemma addMessages_keeps_newest calls prev :
  (1 ≤ cap)%Z → calls ≠ [] →
  addMessages o calls prev = newest (Z.to_nat cap) (prev ++ created calls).
Proof.
  intros Hcap Hne. destruct calls as [|c calls]; [done|].
  rewrite addMessages_cons, append_message_newest by done.
  rewrite addMessages_newest by done.
  by rewrite <-(assoc_L (++)).
Qed.

Lemma addMessages_length calls prev :
  (1 ≤ cap)%Z → calls ≠ [] →
  (Z.of_nat (length (addMessages o calls prev)) ≤ cap)%Z.
Proof.
  intros. rewrite addMessages_keeps_newest, length_newest by done. lia.
Qed.

(** With a cap of zero the guard holds after every call, and
    [slice(-0)] copies the whole array. *)
Lemma append_message_cap_0 m prev :
  cap = 0%Z → append_message o m prev = prev ++ [m].
Proof.
  intros Hcap. unfold append_message. fold cap. rewrite Hcap.
  case_decide; [apply slice_0|done].
Qed.

Lemma addMessages_cap_0 calls prev :
  cap = 0%Z → addMessages o calls prev = prev ++ created calls.
Proof.
  intros Hcap. revert prev. induction calls as [|c calls IH]; intros prev.
  - simpl. by rewrite (right_id_L [] (++)).
  - rewrite addMessages_cons, append_message_cap_0 by done.
    rewrite IH. by rewrite <-(assoc_L (++)).
Qed.
End MessageLog.

(** The scenario of the specification: a fresh session with the default
    cap of 50 receives 55 messages; the welcome Message and the 5 oldest
    created Messages are evicted, the newest 50 remain, oldest first. *)
Lemma addMessages_55 (calls : list (val * Env)) (t : Z) :
  length calls = 55 →
  addMessages default_options calls [initial_message t]
  = created (drop 5 calls).
Proof.
  intros Hlen. rewrite addMessages_keeps_newest; [|done|by destruct calls].
  unfold newest, created.
  rewrite length_app, length_fmap, Hlen. simpl.
  by rewrite fmap_drop.
Qed.

(** C1 (the code at the failing configuration): with [maxHistoryLength]
    set to 0 the Message log is never cut; after any sequence of
    [addMessage] calls it holds every Message it ever held, so its length
    exceeds the cap from the first call on. *)
Theorem addMessage_cap_0_never_evicts (calls : list (val * Env)) (prev : list val) :
  addMessages (with_cap default_options 0) calls prev = prev ++ created calls
  ∧ length (addMessages (with_cap default_options 0) calls prev)
    = length prev + length calls.
Proof.
  assert (addMessages (with_cap default_options 0) calls prev
          = prev ++ created calls) as Heq by by apply addMessages_cap_0.
  split; [done|]. rewrite Heq, length_app. unfold created.
  by rewrite length_fmap.
Qed.

(** ** The Exchange log under [updateConversationHistory] *)

Section ExchangeLog.
Variable o : UseChatOptions.
Let maxExchanges := (maxHistoryLength o `div` 2)%Z.

(** No eviction: the guard is false, or it holds and [slice(-0)] copies
    the whole array. *)
Lemma append_exchange_keep u b xs :
  (maxExchanges = 0 ∨ Z.of_nat (length xs) + 2 ≤ maxExchanges * 2)%Z →
  append_exchange o u b (VArr xs) = Ok (VArr (xs ++ new_pair u b)).
Proof.
  intros Hm. unfold append_exchange. simpl. fold maxExchanges.
  do 2 f_equal. case_decide as Hlen; [|done].
  rewrite length_app in Hlen. simpl in Hlen.
  destruct Hm as [->|?]; [apply slice_0|lia].
Qed.

(** A positive number of exchanges: the newest entries are kept. *)
Lemma append_exchange_newest u b xs :
  (1 ≤ maxExchanges)%Z →
  append_exchange o u b (VArr xs)
  = Ok (VArr (newest (2 * Z.to_nat maxExchanges) (xs ++ new_pair u b))).
Proof.
  intros Hm. unfold append_exchange. simpl. fold maxExchanges.
  do 2 f_equal. case_decide as Hlen.
  - replace (- maxExchanges * 2)%Z with (- (maxExchanges * 2))%Z by lia.
    rewrite slice_from_end by lia. f_equal. lia.
  - rewrite newest_all; [done|]. unfold new_pair. lia.
Qed.

(** A negative cap: [slice] gets a positive start and drops that many
    entries from the front. *)
Lemma append_exchange_drop u b xs :
  (maxExchanges < 0)%Z →
  append_exchange o u b (VArr xs)
  = Ok (VArr (drop (2 * Z.to_nat (- maxExchanges)) (xs ++ new_pair u b))).
Proof.
  intros Hm. unfold append_exchange. simpl. fold maxExchanges.
  do 2 f_equal. case_decide as Hlen; [|lia].
  rewrite slice_from_start by lia. f_equal. lia.
Qed.

(** On an array the update never throws, and it returns a suffix of the
    array extended by the two entries. *)
Lemma append_exchange_suffix u b xs :
  ∃ k, append_exchange o u b (VArr xs)
       = Ok (VArr (drop k (xs ++ new_pair u b)))
       ∧ ((0 ≤ maxExchanges)%Z → k ≤ length xs)
       ∧ (Nat.Even (length xs) → Nat.Even k).
Proof.
  destruct (Z.lt_trichotomy maxExchanges 0) as [Hm|[Hm|Hm]].
  - exists (2 * Z.to_nat (- maxExchanges)).
    split; [by apply append_exchange_drop|]. split; [lia|].
    intros _. by eexists.
  - exists 0. split; [apply append_exchange_keep; auto|].
    split; [lia|]. intros _. by exists 0.
  - exists (length xs + 2 - 2 * Z.to_nat maxExchanges).
    split; [rewrite append_exchange_newest by lia; unfold newest;
            by rewrite length_app|].
    split; [lia|]. intros [j Hj].
    exists (j + 1 - Z.to_nat maxExchanges). lia.
Qed.

Lemma updateConversations_cons u b calls prev :
  updateConversations o ((u, b) :: calls) prev
  = append_exchange o u b prev ≫= updateConversations o calls.
Proof. done. Qed.

Lemma updateConversations_keep calls xs :
  (maxExchanges = 0
   ∨ Z.of_nat (length xs) + 2 * Z.of_nat (length calls) ≤ maxExchanges * 2)%Z →
  updateConversations o calls (VArr xs) = Ok (VArr (xs ++ pairs calls)).
Proof.
  revert xs. induction calls as [|[u b] calls IH]; intros xs Hm.
  - simpl. by rewrite (right_id_L [] (++)).
  - rewrite updateConversations_cons.
    rewrite append_exchange_keep, bind_Ok by (simpl in Hm; lia).
    rewrite IH.
    + unfold pairs. rewrite bind_cons. simpl. by rewrite <-(assoc_L (++)).
    + rewrite length_app. simpl in *. lia.
Qed.

Lemma updateConversations_newest calls l :
  (1 ≤ maxExchanges)%Z →
  updateConversations o calls (VArr (newest (2 * Z.to_nat maxExchanges) l))
  = Ok (VArr (newest (2 * Z.to_nat maxExchanges) (l ++ pairs calls))).
Proof.
  intros Hm. revert l. induction calls as [|[u b] calls IH]; intros l.
  - simpl. by rewrite (right_id_L [] (++)).
  - rewrite updateConversations_cons.
    rewrite append_exchange_newest, bind_Ok by done.
    rewrite newest_newest_app, IH.
    unfold pairs. rewrite bind_cons. simpl. by rewrite <-(assoc_L (++)).
Qed.

End ExchangeLog.

Lemma length_pairs calls : length (pairs calls) = 2 * length calls.
Proof.
  unfold pairs. induction calls as [|c calls IH]; [done|].
  rewrite bind_cons, length_app, IH. simpl. lia.
Qed.

Lemma pairs_app calls1 calls2 : pairs (calls1 ++ calls2) = pairs calls1 ++ pairs calls2.
Proof. unfold pairs. apply bind_app. Qed.

Lemma pairs_lookup calls i u b :
  calls !! i = Some (u, b) →
  pairs calls !! (2 * i) = Some (exchange "user" u)
  ∧ pairs calls !! (2 * i + 1) = Some (exchange "assistant" b).
Proof.
  revert i. induction calls as [|c calls IH]; intros i Hi; [done|].
  unfold pairs. rewrite bind_cons. fold (pairs calls).
  destruct i as [|i]; simpl in *.
  - by simplify_eq.
  - replace (i + S (i + 0)) with (S (2 * i)) by lia.
    replace (i + S (i + 0) + 1) with (S (2 * i + 1)) by lia.
    simpl. by apply IH.
Qed.

Lemma drop_pairs k calls : drop (2 * k) (pairs calls) = pairs (drop k calls).
Proof.
  revert calls. induction k as [|k IH]; intros calls; [done|].
  destruct calls as [|c calls]; [done|].
  replace (2 * S k) with (S (S (2 * k))) by lia.
  unfold pairs. rewrite bind_cons. fold (pairs calls). simpl.
  apply IH.
Qed.

(** Cutting a log of whole pairs to an even number of entries keeps whole
    pairs. *)
Lemma newest_pairs n calls :
  newest (2 * n) (pairs calls) = pairs (newest n calls).
Proof.
  unfold newest. rewrite length_pairs.
  replace (2 * length calls - 2 * n) with (2 * (length calls - n)) by lia.
  apply drop_pairs.
Qed.

Lemma pairs_snoc calls u b : pairs (calls ++ [(u, b)]) = pairs calls ++ new_pair u b.
Proof. by rewrite pairs_app. Qed.

(** On a log of whole pairs the update leaves whole pairs: the pairs of
    the latest calls. *)
Lemma append_exchange_pairs o u b prior :
  ∃ k, append_exchange o u b (VArr (pairs prior))
       = Ok (VArr (pairs (drop k (prior ++ [(u, b)])))).
Proof.
  destruct (append_exchange_suffix o u b (pairs prior)) as (k & -> & _ & Hk).
  destruct Hk as [j ->]; [rewrite length_pairs; by eexists|].
  exists j. by rewrite <-pairs_snoc, drop_pairs.
Qed.

Lemma updateConversations_pairs o calls prior :
  ∃ kept, updateConversations o calls (VArr (pairs prior)) = Ok (VArr (pairs kept))
          ∧ kept `suffix_of` prior ++ calls.
Proof.
  revert prior. induction calls as [|[u b] calls IH]; intros prior.
  - exists prior. by rewrite (right_id_L [] (++)).
  - rewrite updateConversations_cons.
    destruct (append_exchange_pairs o u b prior) as [k ->].
    rewrite bind_Ok.
    destruct (IH (drop k (prior ++ [(u, b)]))) as (kept & -> & Hsuf).
    exists kept. split; [done|].
    etrans; [done|].
    replace (prior ++ (u, b) :: calls) with ((prior ++ [(u, b)]) ++ calls)
      by (by rewrite <-(assoc_L (++))).
    apply suffix_app, suffix_drop.
Qed.

(** With room for at least one exchange, the log holds the pairs of the
    latest calls, as many as the cap admits, and never more entries than
    the cap. *)
Lemma updateConversations_keeps_newest_pairs o calls prior :
  let maxExchanges := (maxHistoryLength o `div` 2)%Z in
  (1 ≤ maxExchanges)%Z →
  (Z.of_nat (length prior) ≤ maxExchanges)%Z →
  ∃ log, updateConversations o calls (VArr (pairs prior)) = Ok (VArr log)
         ∧ log = pairs (newest (Z.to_nat maxExchanges) (prior ++ calls))
         ∧ (Z.of_nat (length log) ≤ maxHistoryLength o)%Z.
Proof.
  intros m Hm Hprior. eexists. split; [|split; [done|]].
  - rewrite <-(newest_all (2 * Z.to_nat m) (pairs prior))
      by (rewrite length_pairs; lia).
    rewrite updateConversations_newest by done.
    by rewrite <-pairs_app, newest_pairs.
  - rewrite length_pairs, length_newest.
    assert (m * 2 ≤ maxHistoryLength o)%Z; [|lia].
    unfold m. pose proof (Z.mul_div_le (maxHistoryLength o) 2). lia.
Qed.

(** C3 (the claim fails here): with a negative cap [maxExchanges] is
    negative, the guard always holds and [slice] gets a positive start, so
    the front of the extended log is dropped, the new entries included.
    At cap -2 a call on the empty log leaves it empty, and a call on a log
    of one entry leaves the assistant entry alone. *)
Lemma updateConversationHistory_negative_cap_drops_pair :
  append_exchange (with_cap default_options (-2)) "a" "b" (VArr [])
  = Ok (VArr [])
  ∧ append_exchange (with_cap default_options (-2)) "a" "b"
      (VArr [exchange "user" "x"])
    = Ok (VArr [exchange "assistant" "b"]).
Proof. split; vm_compute; reflexivity. Qed.

(** C3 (as amended): every call of [updateConversationHistory] extends the
    Exchange log by a user entry followed by an assistant entry and
    returns a suffix of the extended log; on a log of whole pairs the
    suffix starts at a pair boundary, so no pair is split, and with a cap
    that is not negative both new entries are kept.  From an empty log, N
    calls that evict nothing (N exchanges fit the cap) leave exactly 2N
    entries, role "user" at every even index and "assistant" at every odd
    index. *)
Theorem updateConversationHistory_appends_pairs (o : UseChatOptions) :
  (∀ u b xs, ∃ k,
      append_exchange o u b (VArr xs)
      = Ok (VArr (drop k (xs ++ [exchange "user" u; exchange "assistant" b])))
      ∧ ((0 ≤ maxHistoryLength o)%Z → k ≤ length xs)
      ∧ (Nat.Even (length xs) → Nat.Even k))
  ∧ (∀ calls,
      (Z.of_nat (length calls) ≤ maxHistoryLength o `div` 2)%Z →
      ∃ log, updateConversations o calls (VArr []) = Ok (VArr log)
             ∧ log = pairs calls
             ∧ length log = 2 * length calls
             ∧ ∀ i, i < length calls →
                    prop_of "role" <$> log !! (2 * i) = Some (VStr "user")
                    ∧ prop_of "role" <$> log !! (2 * i + 1) = Some (VStr "assistant")).
Proof.
  split.
  - intros u b xs. destruct (append_exchange_suffix o u b xs) as (k & ? & Hk & ?).
    exists k. split; [done|]. split; [|done].
    intros ?. apply Hk. by apply Z.div_pos.
  - intros calls Hfit. exists (pairs calls).
    split; [|split; [done|split; [apply length_pairs|]]].
    + rewrite updateConversations_keep; [done|]. simpl. lia.
    + intros i Hi. destruct (lookup_lt_is_Some_2 calls i Hi) as [[u b] Hc].
      destruct (pairs_lookup _ _ _ _ Hc) as [-> ->]. done.
Qed.

(** The default cap and the first exchange of a session. *)
Lemma updateConversationHistory_appends_pairs_witness :
  (Z.of_nat (length [("Hi", "Hello!")]) ≤ maxHistoryLength default_options `div` 2)%Z
  ∧ updateConversations default_options [("Hi", "Hello!")] (VArr [])
    = Ok (VArr [exchange "user" "Hi"; exchange "assistant" "Hello!"]).
Proof.
  assert (Z.of_nat (length [("Hi", "Hello!")])
          ≤ maxHistoryLength default_options `div` 2)%Z as Hfit
    by (vm_compute; discriminate).
  split; [exact Hfit|].
  destruct (proj2 (updateConversationHistory_appends_pairs default_options)
              [("Hi", "Hello!")] Hfit) as (log & Hrun & -> & _).
  exact Hrun.
Defined.

(** C5: from an empty Exchange log, for every cap and every sequence of
    [updateConversationHistory] calls, the log is an array made of the
    whole pairs of the latest calls; its length is even. *)
Theorem exchange_log_length_even (o : UseChatOptions) (calls : list (string * string)) :
  ∃ kept, updateConversations o calls (VArr []) = Ok (VArr (pairs kept))
          ∧ kept `suffix_of` calls
          ∧ Nat.Even (length (pairs kept)).
Proof.
  destruct (updateConversations_pairs o calls []) as (kept & Hrun & Hsuf).
  exists kept. split; [done|]. split; [done|].
  rewrite length_pairs. by eexists.
Qed.

(** C10: when [maxHistoryLength] is 0 or 1, [maxExchanges] is 0, the
    eviction branch is taken after every call and slices from [-0], which
    copies the whole array: from an empty log, N calls leave exactly the
    2N entries written, for every N. *)
Theorem exchange_log_unbounded (o : UseChatOptions) (calls : list (string * string)) :
  maxHistoryLength o = 0%Z ∨ maxHistoryLength o = 1%Z →
  (∀ (l : list val) u b,
      (maxHistoryLength o `div` 2 * 2 < Z.of_nat (length (l ++ new_pair u b)))%Z)
  ∧ (∀ l : list val, slice (- (maxHistoryLength o `div` 2) * 2) l = l)
  ∧ updateConversations o calls (VArr []) = Ok (VArr (pairs calls))
  ∧ length (pairs calls) = 2 * length calls.
Proof.
  intros Hcap.
  assert (maxHistoryLength o `div` 2 = 0)%Z as Hm by (destruct Hcap as [->| ->]; done).
  split; [|split; [|split]].
  - intros l u b. rewrite Hm, length_app. simpl. lia.
  - intros l. rewrite Hm. apply slice_0.
  - rewrite updateConversations_keep; [done|]. by left.
  - apply length_pairs.
Qed.

(** Three calls with a cap of 1: all six entries stay. *)
Lemma exchange_log_unbounded_witness :
  (maxHistoryLength (with_cap default_options 1) = 0%Z
   ∨ maxHistoryLength (with_cap default_options 1) = 1%Z)
  ∧ updateConversations (with_cap default_options 1)
    [("a", "b"); ("c", "d"); ("e", "f")] (VArr [])
  = Ok (VArr (pairs [("a", "b"); ("c", "d"); ("e", "f")])).
Proof.
  assert (maxHistoryLength (with_cap default_options 1) = 0%Z
          ∨ maxHistoryLength (with_cap default_options 1) = 1%Z) as Hcap
    by (right; reflexivity).
  split; [exact Hcap|].
  apply (exchange_log_unbounded (with_cap default_options 1) _ Hcap).
Defined.

(** C4 (the code at the failing configuration): with [maxHistoryLength]
    set to 1 the Exchange cap is 0 whole exchanges, but the log is never
    cut: after N calls it holds the 2N new entries behind all it held
    before. *)
Theorem exchange_cap_1_never_evicts (calls : list (string * string)) (xs : list val) :
  (maxHistoryLength (with_cap default_options 1) `div` 2 = 0)%Z
  ∧ updateConversations (with_cap default_options 1) calls (VArr xs)
    = Ok (VArr (xs ++ pairs calls))
  ∧ length (xs ++ pairs calls) = length xs + 2 * length calls.
Proof.
  split; [done|]. split.
  - apply updateConversations_keep. by left.
  - by rewrite length_app, length_pairs.
Qed.

(** ** Objects and identifiers *)

Lemma get_prop_set_prop k v ps : get_prop k (set_prop k v ps) = v.
Proof.
  induction ps as [|[k' v'] ps IH]; simpl.
  - by rewrite decide_True.
  - destruct (decide (k = k')) as [->|Hne]; simpl.
    + by rewrite decide_True.
    + by rewrite decide_False.
Qed.

Lemma get_prop_set_prop_ne k k' v ps :
  k ≠ k' → get_prop k' (set_prop k v ps) = get_prop k' ps.
Proof.
  intros Hne. induction ps as [|[k0 v0] ps IH]; simpl.
  - by rewrite decide_False.
  - destruct (decide (k = k0)) as [->|?]; simpl.
    + by rewrite !decide_False.
    + destruct (decide (k' = k0)); [done|apply IH].
Qed.

Lemma pretty_N_char_digit x : is_digit (pretty_N_char x).
Proof.
  unfold is_digit, pretty_N_char.
  repeat case_match; by vm_compute.
Qed.

Lemma pretty_N_go_first x s :
  (0 < x)%N → ∃ c s', pretty_N_go x s = String c s' ∧ is_digit c.
Proof.
  revert s. induction (N.lt_wf_0 x) as [x _ IH]; intros s Hx.
  rewrite pretty_N_go_step by done.
  destruct (decide (x `div` 10 = 0)%N) as [->|Hdiv].
  - rewrite pretty_N_go_0. eauto using pretty_N_char_digit.
  - apply IH; [apply N.div_lt; lia|by apply N.neq_0_lt_0].
Qed.

Lemma pretty_Z_first (z : Z) :
  ∃ c s, pretty z = String c s ∧ (is_digit c ∨ c = "-"%char).
Proof.
  destruct z as [|p|p].
  - exists "0"%char, "". split; [done|]. left. by vm_compute.
  - unfold pretty, pretty_Z, pretty, pretty_positive, pretty, pretty_N.
    rewrite decide_False by done.
    destruct (pretty_N_go_first (N.pos p) "") as (c & s & -> & ?); [done|].
    eauto.
  - exists "-"%char. eexists. split; [reflexivity|by right].
Qed.

Lemma append_inj_length (a a' r r' : string) :
  String.length a = String.length a' → a +:+ r = a' +:+ r' → a = a' ∧ r = r'.
Proof.
  revert a'. induction a as [|c a IH]; intros [|c' a'] Hlen Heq;
    simplify_eq/=; [done|].
  destruct (IH a') as [-> ->]; done.
Qed.

Lemma append_inj_l (a r r' : string) : a +:+ r = a +:+ r' → r = r'.
Proof. intros Heq. by destruct (append_inj_length a a r r'). Qed.

Lemma new_id_first e : ∃ c s, new_id e = String c s ∧ (is_digit c ∨ c = "-"%char).
Proof.
  unfold new_id. destruct (pretty_Z_first (Date_now e)) as (c & s & -> & Hc).
  simpl. eauto.
Qed.

Lemma new_id_not_initial e s : new_id e ≠ "initial" +:+ s.
Proof.
  destruct (new_id_first e) as (c & s' & -> & Hc). simpl. intros Heq.
  injection Heq as -> _.
  destruct Hc as [[_ Hc]|Hc]; [by apply Hc|done].
Qed.

Lemma new_id_inj e e' :
  String.length (pretty (Date_now e)) = String.length (pretty (Date_now e')) →
  new_id e = new_id e' → Date_now e = Date_now e' ∧ random e = random e'.
Proof.
  intros Hlen Heq. destruct (append_inj_length _ _ _ _ Hlen Heq) as [Hp ?].
  split; [|done]. by apply (inj pretty).
Qed.

Lemma id_of_newMessage message e :
  prop_of "id" (newMessage message e) = VStr (new_id e).
Proof.
  unfold newMessage, prop_of.
  rewrite get_prop_set_prop_ne by done. apply get_prop_set_prop.
Qed.

Lemma id_of_cleared d t :
  prop_of "id" (cleared_message d t) = VStr ("initial-" +:+ pretty d).
Proof. done. Qed.

Lemma last_append_message o m prev :
  (0 ≤ maxHistoryLength o)%Z → last (append_message o m prev) = Some m.
Proof.
  intros Hcap. destruct (decide (maxHistoryLength o = 0%Z)) as [H0|Hne].
  - rewrite append_message_cap_0 by done. apply last_snoc.
  - rewrite append_message_newest by lia. unfold newest.
    rewrite length_app. simpl. rewrite drop_app_le by lia. apply last_snoc.
Qed.

(** C9 (the claim fails here): two calls of [addMessage] that read the
    same clock value and draw the same random characters build the same
    identifier; the second Message's identifier is the identifier of a
    Message already in the log. *)
Lemma addMessage_id_reused :
  prop_of "id"
    (addMessage default_options hi_from_user same_draw
       (addMessage default_options hi_from_user same_draw fresh_hook).2).1
  ∈ prop_of "id"
    <$> messages (addMessage default_options hi_from_user same_draw fresh_hook).2.
Proof. vm_compute. apply list_elem_of_lookup. by exists 1. Qed.

(** C9 (as amended): [addMessage] returns the Message it builds, and with
    a cap that is not negative that Message is the last entry of the new
    log.  Its properties other than [id] and [timestamp] are the
    argument's, its timestamp is the time read at the call, and its
    identifier is the decimal [Date.now()] followed by the random
    characters.  That identifier differs from the identifier of the
    welcome Message, from the identifier of every Message written by
    [clearChat], and from the identifier built by any call that read a
    clock value of the same number of digits and a different pair of clock
    value and random characters. *)
Theorem addMessage_returns_new_message
    (o : UseChatOptions) (message : val) (e : Env) (h : Hook) :
  let m := (addMessage o message e h).1 in
  let h' := (addMessage o message e h).2 in
  m = newMessage message e
  ∧ conversationHistory h' = conversationHistory h
  ∧ ((0 ≤ maxHistoryLength o)%Z → last (messages h') = Some m)
  ∧ (∀ k, k ≠ "id" → k ≠ "timestamp" →
          prop_of k m = get_prop k (own_props message))
  ∧ prop_of "timestamp" m = VDate (TimeValue (now e))
  ∧ prop_of "id" m = VStr (pretty (Date_now e) +:+ random e)
  ∧ (∀ t, prop_of "id" m ≠ prop_of "id" (initial_message t))
  ∧ (∀ d t, prop_of "id" m ≠ prop_of "id" (cleared_message d t))
  ∧ (∀ message' e',
        String.length (pretty (Date_now e')) = String.length (pretty (Date_now e)) →
        (Date_now e', random e') ≠ (Date_now e, random e) →
        prop_of "id" (newMessage message' e') ≠ prop_of "id" m).
Proof.
  intros m h'.
  assert (m = newMessage message e) as -> by done.
  assert (messages h' = append_message o (newMessage message e) (messages h))
    as Hlog by done.
  split; [done|]. split; [done|].
  split; [intros ?; rewrite Hlog; by apply last_append_message|].
  split.
  { intros k ??. unfold newMessage, prop_of.
    by rewrite !get_prop_set_prop_ne. }
  split; [unfold newMessage, prop_of; apply get_prop_set_prop|].
  rewrite id_of_newMessage. split; [done|].
  split; [|split].
  - intros t [= Heq]. by apply (new_id_not_initial e "").
  - intros d t. rewrite id_of_cleared. intros [= Heq].
    by apply (new_id_not_initial e ("-" +:+ pretty d)).
  - intros message' e' Hlen Hne.
    rewrite id_of_newMessage. intros [= Heq].
    apply new_id_inj in Heq as [??]; [|done]. apply Hne. by f_equal.
Qed.

(** The default cap: the Message returned is the last of the log. *)
Lemma addMessage_returns_new_message_witness :
  (0 ≤ maxHistoryLength default_options)%Z
  ∧ last (messages (addMessage default_options hi_from_user same_draw fresh_hook).2)
    = Some (addMessage default_options hi_from_user same_draw fresh_hook).1.
Proof.
  assert (0 ≤ maxHistoryLength default_options)%Z as Hcap by (by vm_compute).
  split; [exact Hcap|].
  exact (proj1 (proj2 (proj2
    (addMessage_returns_new_message default_options hi_from_user same_draw fresh_hook)))
    Hcap).
Defined.

(** ** Storage *)

Lemma messages_key_ne o : messages_key o ≠ conversation_key o.
Proof. intros Heq. by apply append_inj_l in Heq. Qed.

Lemma getItem_accessible k st :
  accessible st = true → getItem k st = Ok (items st !! k).
Proof. unfold getItem. by intros ->. Qed.

Lemma setItem_Ok k v st st' :
  setItem k v st = Ok st' →
  accessible st = true ∧ accessible st' = true
  ∧ items st' = <[k := v]> (items st) ∧ quota st' = quota st.
Proof.
  unfold setItem. destruct (accessible st); [|done].
  destruct (quota st) as [q|]; [case_decide|]; intros; by simplify_eq.
Qed.

Lemma setItem_unlimited k v st :
  accessible st = true → quota st = None →
  setItem k v st
  = Ok {| items := <[k := v]> (items st); accessible := true; quota := None |}.
Proof. unfold setItem. by intros -> ->. Qed.

Lemma removeItem_accessible k st :
  accessible st = true →
  removeItem k st
  = Ok {| items := delete k (items st); accessible := true; quota := quota st |}.
Proof. unfold removeItem. by intros ->. Qed.

Section Persist.
Context `{Host}.
Variable o : UseChatOptions.

Lemma persist_Ok h st st' :
  persist o h st = Ok st' →
  accessible st = true ∧ accessible st' = true
  ∧ items st' !! messages_key o = Some (JSON_stringify (VArr (messages h)))
  ∧ items st' !! conversation_key o = Some (JSON_stringify (conversationHistory h))
  ∧ (∀ k, k ≠ messages_key o → k ≠ conversation_key o →
          items st' !! k = items st !! k).
Proof.
  unfold persist, persist_messages, persist_conversation.
  intros (st1 & H1 & H2)%bind_Ok_inv.
  apply setItem_Ok in H1 as (? & ? & Hi1 & ?).
  apply setItem_Ok in H2 as (? & ? & Hi2 & ?).
  rewrite Hi2, Hi1. repeat split; [done..| | |].
  - rewrite lookup_insert_ne by (symmetry; apply messages_key_ne).
    apply lookup_insert_eq.
  - apply lookup_insert_eq.
  - intros k ??. by rewrite !lookup_insert_ne.
Qed.

Lemma persist_unlimited h st :
  accessible st = true → quota st = None → returns (persist o h st).
Proof.
  intros Ha Hq. unfold persist, persist_messages, persist_conversation.
  rewrite setItem_unlimited, bind_Ok by done.
  rewrite setItem_unlimited by done. by eexists.
Qed.

(** The initialisers never throw once [getItem] has returned. *)
Lemma initialize_accessible t st :
  accessible st = true → returns (initialize o t st).
Proof.
  intros Ha. unfold initialize, init_messages, init_conversation.
  rewrite !getItem_accessible by done. rewrite !bind_Ok. by eexists.
Qed.

End Persist.

(** ** Failures of storage *)


(** The write of the effect that follows [addMessage] is not guarded
    either: a full storage makes it throw inside React. *)
Lemma persist_messages_quota_exceeded :
  (@addMessage_then_render reference_host default_options hi_from_user same_draw
     fresh_hook {| items := ∅; accessible := true; quota := Some 10 |}).2
  = Throw QuotaExceededError.
Proof. vm_compute. reflexivity. Qed.



(** ** Restoring persisted state *)

Lemma mapM_result_cons {A B} (f : A → result B) (x : A) (l : list A) :
  mapM f (x :: l) = (f x ≫= λ y, mapM f l ≫= λ k, Ok (y :: k)).
Proof. done. Qed.

Lemma mapM_result_fmap {A B} (f : A → result B) (g : A → B) (l : list A) :
  Forall (λ x, f x = Ok (g x)) l → mapM f l = Ok (g <$> l).
Proof.
  induction 1 as [|x l Hx _ IH]; [done|].
  by rewrite mapM_result_cons, Hx, bind_Ok, IH, bind_Ok.
Qed.


Section Restore.
Context `{Host}.

Lemma jsonify_VObj ps :
  jsonify (VObj ps)
  = VObj (omap (λ p, match p with
                     | (k, x) => match jsonify x with
                                 | VUndefined => None
                                 | j => Some (k, j)
                                 end
                     end) ps).
Proof. done. Qed.

Lemma jsonify_VArr xs :
  jsonify (VArr xs)
  = VArr ((λ x, match jsonify x with VUndefined => VNull | j => j end) <$> xs).
Proof. done. Qed.

Lemma jsonify_primitive x : primitive x = true → jsonify x = x.
Proof. by destruct x. Qed.

Lemma jsonify_message_prop p :
  message_prop p = true → jsonify p.2 ≠ VUndefined.
Proof.
  unfold message_prop. destruct p as [k x]. simpl.
  case_decide; destruct x as [| | | | |[]| |]; done.
Qed.

Lemma jsonify_message_props ps :
  forallb message_prop ps = true →
  jsonify (VObj ps) = VObj (jsonify_prop <$> ps).
Proof.
  intros Hps. rewrite jsonify_VObj. f_equal.
  induction ps as [|[k x] ps IH]; [done|].
  apply andb_prop in Hps as [Hp Hps].
  pose proof (jsonify_message_prop _ Hp) as Hne. simpl in Hne.
  rewrite fmap_cons, <-(IH Hps). cbn [omap list_omap].
  unfold jsonify_prop. cbn [fst snd]. by destruct (jsonify x).
Qed.

Lemma get_prop_jsonify k ps :
  get_prop k (jsonify_prop <$> ps) = jsonify (get_prop k ps).
Proof.
  induction ps as [|[k' x] ps IH]; [done|]. simpl.
  by destruct (decide (k = k')).
Qed.

Lemma get_prop_timestamp ps :
  "timestamp" ∈ ps.*1 → forallb message_prop ps = true →
  ∃ d, get_prop "timestamp" ps = VDate d.
Proof.
  induction ps as [|[k x] ps IH]; intros Hin Hps.
  - by apply elem_of_nil in Hin.
  - apply andb_prop in Hps as [Hp Hps]. simpl.
    destruct (decide ("timestamp" = k)) as [<-|Hne].
    + unfold message_prop in Hp. simpl in Hp.
      destruct x; try done. by eexists.
    + apply IH; [|done]. simpl in Hin. by apply elem_of_cons in Hin as [?|?].
Qed.

Lemma jsonify_props_id ps :
  "timestamp" ∉ ps.*1 → forallb message_prop ps = true →
  jsonify_prop <$> ps = ps.
Proof.
  induction ps as [|[k x] ps IH]; intros Hnin Hps; [done|].
  apply andb_prop in Hps as [Hp Hps]. simpl in Hnin.
  apply not_elem_of_cons in Hnin as [Hne Hnin].
  unfold message_prop in Hp. simpl in Hp.
  rewrite decide_False in Hp by done.
  rewrite fmap_cons, IH by done. unfold jsonify_prop. simpl.
  by rewrite jsonify_primitive.
Qed.

Lemma set_prop_jsonify v ps :
  NoDup ps.*1 → forallb message_prop ps = true →
  set_prop "timestamp" v (jsonify_prop <$> ps) = set_prop "timestamp" v ps.
Proof.
  induction ps as [|[k x] ps IH]; intros Hnd Hps; [done|].
  apply andb_prop in Hps as [Hp Hps]. simpl in Hnd.
  apply NoDup_cons in Hnd as [Hnin Hnd].
  change (set_prop "timestamp" v (jsonify_prop <$> (k, x) :: ps))
    with (if decide ("timestamp" = k)
          then ("timestamp", v) :: (jsonify_prop <$> ps)
          else (k, jsonify x) :: set_prop "timestamp" v (jsonify_prop <$> ps)).
  change (set_prop "timestamp" v ((k, x) :: ps))
    with (if decide ("timestamp" = k)
          then ("timestamp", v) :: ps
          else (k, x) :: set_prop "timestamp" v ps).
  destruct (decide ("timestamp" = k)) as [<-|Hne].
  - by rewrite jsonify_props_id.
  - rewrite IH by done. unfold message_prop in Hp. simpl in Hp.
    rewrite decide_False in Hp by done. by rewrite jsonify_primitive.
Qed.

Lemma is_message_inv v :
  is_message v = true →
  ∃ ps d, v = VObj ps ∧ NoDup ps.*1 ∧ forallb message_prop ps = true
          ∧ get_prop "timestamp" ps = VDate d.
Proof.
  destruct v as [| | | | | | |ps]; try done. simpl.
  intros [[Hnd Hin]%andb_prop Hps]%andb_prop.
  apply bool_decide_eq_true in Hnd, Hin.
  destruct (get_prop_timestamp ps Hin Hps) as [d Hd].
  by exists ps, d.
Qed.

Lemma new_Date_jsonify v ps d :
  v = VObj ps → get_prop "timestamp" ps = VDate d → date_reads_back v →
  new_Date (jsonify (VDate d)) = Ok (revive_date d).
Proof.
  intros -> Hd Hback. destruct d as [t|]; [|done]. simpl.
  by rewrite (Hback t Hd).
Qed.

(** Reading back what [JSON.stringify] made of a Message restores it, an
    invalid timestamp apart. *)
Lemma restore_message_jsonify v :
  is_message v = true → date_reads_back v →
  jsonify v ≠ VUndefined
  ∧ restore_message (jsonify v) = Ok (revived v).
Proof.
  intros (ps & d & -> & Hnd & Hps & Hd)%is_message_inv Hback.
  rewrite jsonify_message_props by done. split; [done|].
  unfold restore_message. simpl.
  rewrite get_prop_jsonify, Hd.
  rewrite (new_Date_jsonify _ ps d eq_refl Hd Hback), bind_Ok.
  by rewrite set_prop_jsonify.
Qed.

Lemma jsonify_messages xs :
  forallb is_message xs = true → Forall date_reads_back xs →
  ∃ js, jsonify (VArr xs) = VArr js
        ∧ mapM restore_message js = Ok (revived <$> xs).
Proof.
  intros Hxs Hback. rewrite jsonify_VArr. eexists. split; [done|].
  induction xs as [|x xs IH]; [done|].
  apply andb_prop in Hxs as [Hx Hxs]. apply Forall_cons in Hback as [Hbx Hback].
  destruct (restore_message_jsonify x Hx Hbx) as [Hne Hr].
  rewrite fmap_cons.
  replace (match jsonify x with VUndefined => VNull | j => j end)
    with (jsonify x) by (by destruct (jsonify x)).
  by rewrite mapM_result_cons, Hr, bind_Ok, IH, bind_Ok.
Qed.

Lemma jsonify_exchanges es :
  forallb is_exchange es = true → jsonify (VArr es) = VArr es.
Proof.
  intros Hes. rewrite jsonify_VArr. f_equal.
  induction es as [|x es IH]; [done|].
  apply andb_prop in Hes as [Hx Hes]. rewrite fmap_cons, IH by done.
  f_equal. destruct x as [| | | | | | |ps]; try done.
  destruct ps as [|[k1 v1] [|[k2 v2] [|]]]; try done;
    simpl in Hx; repeat (case_match; try done).
Qed.

Lemma prop_of_revived k v :
  k ≠ "timestamp" → prop_of k (revived v) = prop_of k v.
Proof.
  intros Hne. destruct v as [| | | | | | |ps]; try done. simpl.
  destruct (get_prop "timestamp" ps); try done. simpl.
  by rewrite get_prop_set_prop_ne.
Qed.

Lemma timestamp_of_revived v :
  is_message v = true →
  ∃ d, prop_of "timestamp" v = VDate d
       ∧ prop_of "timestamp" (revived v) = VDate (revive_date d).
Proof.
  intros (ps & d & -> & _ & _ & Hd)%is_message_inv.
  exists d. split; [done|]. simpl. rewrite Hd. simpl.
  apply get_prop_set_prop.
Qed.
End Restore.

Section Reload.
Context `{Host}.
Variable o : UseChatOptions.

Lemma JSON_stringify_VArr xs : JSON_stringify (VArr xs) = JSON_text (jsonify (VArr xs)).
Proof. done. Qed.

(** Initialising from a storage that holds the serialisation of a
    well-formed session gives that session back. *)
Lemma initialize_persisted h es st t :
  accessible st = true →
  items st !! messages_key o = Some (JSON_stringify (VArr (messages h))) →
  items st !! conversation_key o = Some (JSON_stringify (conversationHistory h)) →
  forallb is_message (messages h) = true →
  conversationHistory h = VArr es →
  forallb is_exchange es = true →
  Forall date_reads_back (messages h) →
  reads_back (jsonify (VArr (messages h))) →
  reads_back (VArr es) →
  initialize o t st
  = Ok {| messages := revived <$> messages h; conversationHistory := VArr es |}.
Proof.
  intros Ha Hm Hc Hmsgs Hes Hex Hdates [Hne1 Hp1] [Hne2 Hp2].
  unfold initialize, init_messages, init_conversation.
  rewrite !getItem_accessible, !bind_Ok, Hm, Hc by done.
  rewrite Hes, !JSON_stringify_VArr, (jsonify_exchanges es Hex).
  rewrite !decide_False by done.
  unfold parse. rewrite Hp1, Hp2, bind_Ok.
  destruct (jsonify_messages (messages h) Hmsgs Hdates) as (js & -> & Hjs).
  simpl. by rewrite Hjs.
Qed.
End Reload.

(** ** Reachable sessions are well formed *)

Lemma forallb_drop {A} (P : A → bool) (k : nat) (l : list A) :
  forallb P l = true → forallb P (drop k l) = true.
Proof.
  revert k. induction l as [|x l IH]; intros [|k] Hl; try done.
  apply andb_prop in Hl as [_ Hl]. by apply IH.
Qed.

Lemma forallb_slice {A} (P : A → bool) (start : Z) (l : list A) :
  forallb P l = true → forallb P (slice start l) = true.
Proof. apply forallb_drop. Qed.

Lemma forallb_snoc {A} (P : A → bool) (l k : list A) :
  forallb P l = true → forallb P k = true → forallb P (l ++ k) = true.
Proof. intros. rewrite forallb_app. by apply andb_true_intro. Qed.

Lemma is_message_newMessage content sender e :
  is_message (newMessage (message_of content sender) e) = true.
Proof. by destruct sender. Qed.

Lemma forallb_append_message o m prev :
  is_message m = true → forallb is_message prev = true →
  forallb is_message (append_message o m prev) = true.
Proof.
  intros Hm Hprev. unfold append_message.
  assert (forallb is_message (prev ++ [m]) = true) as Hall
    by (apply forallb_snoc; [done|]; simpl; by rewrite Hm).
  case_decide; [by apply forallb_slice|done].
Qed.

Lemma set_prop_keys k v ps : k ∈ ps.*1 → (set_prop k v ps).*1 = ps.*1.
Proof.
  induction ps as [|[k' v'] ps IH]; intros Hin; [by apply elem_of_nil in Hin|].
  simpl. destruct (decide (k = k')) as [->|Hne]; [done|].
  simpl. f_equal. apply IH. simpl in Hin.
  by apply elem_of_cons in Hin as [?|?].
Qed.

Lemma forallb_set_timestamp d ps :
  forallb message_prop ps = true →
  forallb message_prop (set_prop "timestamp" (VDate d) ps) = true.
Proof.
  induction ps as [|[k v] ps IH]; intros Hps; [done|].
  apply andb_prop in Hps as [Hp Hps]. simpl.
  destruct (decide ("timestamp" = k)) as [<-|Hne];
    apply andb_true_intro; split; [done|exact Hps|exact Hp|by apply IH].
Qed.

Lemma is_message_revived v : is_message v = true → is_message (revived v) = true.
Proof.
  intros Hv. destruct v as [| | | | | | |ps]; try done. simpl in *.
  apply andb_prop in Hv as [[Hnd Hin]%andb_prop Hps].
  apply bool_decide_eq_true in Hin.
  destruct (get_prop "timestamp" ps) as [| | | | |d| |]; simpl;
    rewrite ?Hnd, ?Hps, ?set_prop_keys, ?Hnd by done;
    rewrite ?forallb_set_timestamp by done;
    rewrite ?bool_decide_eq_true_2 by done; done.
Qed.

(** Every session the chat surface can reach consists of Messages and of
    Exchange entries. *)
Lemma reachable_well_formed o h : reachable o h → well_formed h.
Proof.
  induction 1 as [t|c h h' _ [Hm (es & Hc & Hes)] Hstep|h _ [Hm (es & Hc & Hes)]].
  - split; [done|]. by exists [].
  - destruct c as [content sender e|u b|d t]; simpl in Hstep.
    + simplify_eq. split; [|by exists es].
      apply forallb_append_message; [apply is_message_newMessage|done].
    + unfold updateConversationHistory in Hstep. rewrite Hc in Hstep.
      destruct (append_exchange_suffix o u b es) as (k & Hk & _).
      rewrite Hk, bind_Ok in Hstep. simplify_eq. split; [done|].
      eexists. split; [done|]. apply forallb_drop, forallb_snoc; done.
    + simplify_eq. split; [done|]. by exists [].
  - split; [|by exists es]. simpl. clear -Hm.
    induction (messages h) as [|m l IH]; [done|].
    apply andb_prop in Hm as [Hm Hl]. simpl.
    apply andb_true_intro. split; [by apply is_message_revived|by apply IH].
Qed.

(** The scenario of the specification: on a fresh session with the default
    options, a user Message, the reply and the update of the conversation
    give the Message list [welcome, "Hi", "Hello!"] and the Exchange list
    of the one pair. *)
Lemma first_exchange (t : Z) (e1 e2 : Env) :
  steps default_options
    [AddMessage "Hi" user e1; AddMessage "Hello!" bot e2;
     UpdateConversationHistory "Hi" "Hello!"]
    (fresh_session t)
  = Ok {| messages := [initial_message t;
                       newMessage (message_of "Hi" user) e1;
                       newMessage (message_of "Hello!" bot) e2];
          conversationHistory :=
            VArr [exchange "user" "Hi"; exchange "assistant" "Hello!"] |}.
Proof. reflexivity. Qed.

(** ** Round trip *)

(** C8: for every session made of Messages and Exchange entries (every
    session the chat surface can reach is), once the two persistence
    effects have written it,
    [initialize] returns a Message list of the same length and order in
    which every Message has the content, the sender and the identifier of
    the original and a valid time value as timestamp (the original one when
    that was valid), and an Exchange list equal to the original.  The host
    is expected to read back the two texts it wrote and the ISO strings of
    the timestamps. *)
Theorem persist_initialize_round_trip `{Host}
    (o : UseChatOptions) (h : Hook) (st st' : Storage) (t : Z) :
  well_formed h →
  Forall date_reads_back (messages h) →
  reads_back (jsonify (VArr (messages h))) →
  reads_back (conversationHistory h) →
  persist o h st = Ok st' →
  ∃ h', initialize o t st' = Ok h'
        ∧ conversationHistory h' = conversationHistory h
        ∧ messages h' = revived <$> messages h
        ∧ Forall2 (λ m m',
            prop_of "content" m' = prop_of "content" m
            ∧ prop_of "sender" m' = prop_of "sender" m
            ∧ prop_of "id" m' = prop_of "id" m
            ∧ ∃ t', prop_of "timestamp" m' = VDate (TimeValue t')
                    ∧ ∀ t0, prop_of "timestamp" m = VDate (TimeValue t0) → t' = t0)
            (messages h) (messages h').
Proof.
  intros [Hmsgs (es & Hes & Hex)] Hdates Hb1 Hb2 (_ & Ha & Hm & Hc & _)%persist_Ok.
  rewrite Hes in Hb2.
  eexists. split; [by eapply initialize_persisted|].
  split; [done|]. split; [done|]. simpl.
  apply Forall2_fmap_r, Forall_Forall2_diag, Forall_forall.
  intros m Hin. unfold compose. rewrite !prop_of_revived by done.
  do 3 (split; [done|]).
  assert (is_message m = true) as Hmsg.
  { rewrite forallb_forall in Hmsgs. by apply Hmsgs, list_elem_of_In. }
  destruct (timestamp_of_revived m Hmsg) as (d & Hd & ->).
  destruct d as [t0|]; simpl; eexists; (split; [done|]); intros ?; congruence.
Qed.

(** The session of the first exchange, written to an empty storage by
    the reference host and read back. *)
Lemma persist_initialize_round_trip_witness :
  well_formed example_session
  ∧ @persist reference_host default_options example_session (storage_of [])
    = Ok (storage_of
            [(conversation_key default_options,
              @JSON_stringify reference_host (conversationHistory example_session));
             (messages_key default_options,
              @JSON_stringify reference_host (VArr (messages example_session)))])
  ∧ ∃ h', @initialize reference_host default_options 1800000000000
            (storage_of
               [(conversation_key default_options,
                 @JSON_stringify reference_host (conversationHistory example_session));
                (messages_key default_options,
                 @JSON_stringify reference_host (VArr (messages example_session)))])
          = Ok h'
          ∧ conversationHistory h' = conversationHistory example_session
          ∧ messages h' = messages example_session.
Proof.
  assert (well_formed example_session) as Hwf.
  { split; [vm_compute; reflexivity|].
    exists (pairs [("Hi", "Hello!")]). split; vm_compute; reflexivity. }
  assert (@persist reference_host default_options example_session (storage_of [])
    = Ok (storage_of
            [(conversation_key default_options,
              @JSON_stringify reference_host (conversationHistory example_session));
             (messages_key default_options,
              @JSON_stringify reference_host (VArr (messages example_session)))]))
    as Hpersist by (vm_compute; reflexivity).
  assert (Forall (@date_reads_back reference_host) (messages example_session))
    as Hdates.
  { repeat apply Forall_cons_2; [..|apply Forall_nil_2];
      intros t0 Ht; vm_compute in Ht; injection Ht as <-; vm_compute; reflexivity. }
  assert (@reads_back reference_host
            (@jsonify reference_host (VArr (messages example_session)))) as Hb1
    by (split; vm_compute; [discriminate|reflexivity]).
  assert (@reads_back reference_host (conversationHistory example_session)) as Hb2
    by (split; vm_compute; [discriminate|reflexivity]).
  split; [exact Hwf|]. split; [exact Hpersist|].
  destruct (@persist_initialize_round_trip reference_host default_options
              example_session _ _ 1800000000000%Z
              Hwf Hdates Hb1 Hb2 Hpersist)
    as (h' & Hinit & Hc & Hm & _).
  exists h'. split; [exact Hinit|]. split; [exact Hc|].
  rewrite Hm. vm_compute. reflexivity.
Defined.

(** ** Malformed persisted data *)


(** A conversation entry that parses is taken as it is, array or not. *)
Lemma initialize_keeps_malformed_conversation :
  @init_conversation reference_host default_options
    (storage_of [(conversation_key default_options, "{}")])
  = Ok (VObj []).
Proof. vm_compute. reflexivity. Qed.






(** ** [clearChat] *)

(** C6 (the claim fails here): [clearChat] builds the identifier from
    [Date.now()] alone.  A first call leaves one Message in the log; a
    second call that reads the same [Date.now()] gives its Message the
    identifier of that prior Message. *)
Lemma clearChat_id_reused :
  prop_of "id"
    <$> messages (clearChat default_options 1700000000000 1700000000000
                    (storage_of [])).1
  = [VStr "initial-1700000000000"]
  ∧ prop_of "id"
    <$> messages (clearChat default_options 1700000000000 1700000000001
                    (storage_of [])).1
  = [VStr "initial-1700000000000"].
Proof. split; vm_compute; reflexivity. Qed.

Section ClearChat.
Context `{Host}.
Variable o : UseChatOptions.

Lemma clearChat_then_render_Ok d t st h' st' :
  clearChat_then_render o d t st = (h', Ok st') →
  h' = cleared_session d t
  ∧ accessible st = true
  ∧ (∃ st1, (clearChat o d t st).2 = Ok st1
            ∧ items st1 !! messages_key o = None
            ∧ items st1 !! conversation_key o = None
            ∧ persist o h' st1 = Ok st').
Proof.
  unfold clearChat_then_render, clearChat. intros [= <- Hst].
  split; [done|].
  apply bind_Ok_inv in Hst as (st2 & Hrm & Hpersist).
  destruct (accessible st) eqn:Ha; [|by unfold removeItem in Hrm; rewrite Ha in Hrm].
  split; [done|]. exists st2. split; [done|].
  rewrite removeItem_accessible, bind_Ok in Hrm by done.
  rewrite removeItem_accessible in Hrm by done. simplify_eq. simpl.
  split; [|split; [|done]].
  - rewrite lookup_delete_ne by (symmetry; apply messages_key_ne).
    apply lookup_delete_eq.
  - apply lookup_delete_eq.
Qed.
End ClearChat.

(** C6 (as amended): after any call of [clearChat], whatever storage
    does, the Message log is exactly one fresh "cleared" welcome Message
    and the Exchange log is empty, before and after the render that
    follows.  The identifier of that Message is "initial-" followed by
    [Date.now()]; it differs from the identifier of the default welcome
    Message, from every identifier built by [addMessage] and from the
    identifier written by a [clearChat] that read another clock value.
    When storage can be accessed, both persisted entries are removed.
    When the writes of the render that follows succeed as well, both
    entries hold the text of the new state, and on a host that reads back
    the two texts and the ISO string of the timestamp a subsequent
    [initialize] returns exactly the new state, so no Message or Exchange
    from before the call. *)
Theorem clearChat_resets `{Host}
    (o : UseChatOptions) (d t : Z) (st : Storage) :
  messages (clearChat o d t st).1 = [cleared_message d t]
  ∧ conversationHistory (clearChat o d t st).1 = VArr []
  ∧ (clearChat_then_render o d t st).1 = (clearChat o d t st).1
  ∧ prop_of "content" (cleared_message d t) = VStr cleared_text
  ∧ prop_of "id" (cleared_message d t) = VStr ("initial-" +:+ pretty d)
  ∧ (∀ t0, prop_of "id" (cleared_message d t) ≠ prop_of "id" (initial_message t0))
  ∧ (∀ message e,
        prop_of "id" (cleared_message d t) ≠ prop_of "id" (newMessage message e))
  ∧ (∀ d0 t0, d0 ≠ d →
        prop_of "id" (cleared_message d t) ≠ prop_of "id" (cleared_message d0 t0))
  ∧ (accessible st = true →
       ∃ st1, (clearChat o d t st).2 = Ok st1
              ∧ items st1 !! messages_key o = None
              ∧ items st1 !! conversation_key o = None)
  ∧ (∀ st', (clearChat_then_render o d t st).2 = Ok st' →
       accessible st = true
       ∧ items st' !! messages_key o
         = Some (JSON_stringify (VArr [cleared_message d t]))
       ∧ items st' !! conversation_key o = Some (JSON_stringify (VArr []))
       ∧ (reads_back (jsonify (VArr [cleared_message d t])) →
          reads_back (VArr []) →
          date_reads_back (cleared_message d t) →
          ∀ t', initialize o t' st' = Ok (cleared_session d t))).
Proof.
  split; [done|]. split; [done|]. split; [done|]. split; [done|].
  split; [done|]. split; [done|].
  split; [|split; [|split; [|]]].
  - intros message e. rewrite id_of_newMessage, id_of_cleared. intros [= Heq].
    by apply (new_id_not_initial e ("-" +:+ pretty d)).
  - intros d0 t0 Hne. rewrite !id_of_cleared. intros [= Heq].
    apply Hne. symmetry. by apply (inj pretty).
  - intros Ha. unfold clearChat. cbn [snd].
    rewrite removeItem_accessible, bind_Ok by done.
    rewrite removeItem_accessible by done. eexists. split; [done|].
    cbn [items]. split.
    + rewrite lookup_delete_ne by (symmetry; apply messages_key_ne).
      apply lookup_delete_eq.
    + apply lookup_delete_eq.
  - intros st' Hrender.
    assert (clearChat_then_render o d t st = (cleared_session d t, Ok st'))
      as Hrun by (by rewrite <-Hrender).
    apply clearChat_then_render_Ok
      in Hrun as (_ & Ha & st1 & Hclear & Hm1 & Hc1 & Hpersist).
    apply persist_Ok in Hpersist as (_ & Ha' & Hm & Hc & _).
    split; [done|]. split; [done|]. split; [done|].
    intros Hb1 Hb2 Hdate t'.
    rewrite (initialize_persisted o _ [] st' t' Ha' Hm Hc); try done.
    simpl. by apply Forall_cons_2.
Qed.

(** A storage that holds an old session is cleared; the reload finds the
    new seed only. *)
Lemma clearChat_resets_witness :
  @clearChat_then_render reference_host default_options 1700000000000 1700000000001
    (storage_of [(messages_key default_options, "[1,2,3]");
                 (conversation_key default_options, "[4]")])
  = (cleared_session 1700000000000 1700000000001,
     Ok (storage_of
           [(conversation_key default_options, "[]");
            (messages_key default_options,
             @JSON_stringify reference_host
               (VArr [cleared_message 1700000000000 1700000000001]))]))
  ∧ @initialize reference_host default_options 1800000000000
      (storage_of
         [(conversation_key default_options, "[]");
          (messages_key default_options,
           @JSON_stringify reference_host
             (VArr [cleared_message 1700000000000 1700000000001]))])
    = Ok (cleared_session 1700000000000 1700000000001).
Proof.
  assert (@clearChat_then_render reference_host default_options
            1700000000000 1700000000001
            (storage_of [(messages_key default_options, "[1,2,3]");
                         (conversation_key default_options, "[4]")])
          = (cleared_session 1700000000000 1700000000001,
             Ok (storage_of
                   [(conversation_key default_options, "[]");
                    (messages_key default_options,
                     @JSON_stringify reference_host
                       (VArr [cleared_message 1700000000000 1700000000001]))])))
    as Hclear by (vm_compute; reflexivity).
  split; [exact Hclear|].
  destruct (@clearChat_resets reference_host default_options
              1700000000000 1700000000001
              (storage_of [(messages_key default_options, "[1,2,3]");
                           (conversation_key default_options, "[4]")]))
    as (_ & _ & _ & _ & _ & _ & _ & _ & _ & Hreload).
  destruct (Hreload _ (f_equal snd Hclear)) as (_ & _ & _ & Hinit).
  apply Hinit.
  - split; vm_compute; [discriminate|reflexivity].
  - split; vm_compute; [discriminate|reflexivity].
  - intros t0 Ht. vm_compute in Ht. injection Ht as <-. vm_compute. reflexivity.
Defined.


(** * Further properties

    Properties of the hook beyond the claims, and of the code around it:
    the chat surface that calls the hook and the API layer next to it. *)

(** ** Strings *)

Lemma length_append (a b : string) :
  String.length (a +:+ b) = String.length a + String.length b.
Proof. induction a as [|c a IH]; simpl; [done|by rewrite IH]. Qed.

Lemma append_inj_r (a b s : string) : a +:+ s = b +:+ s → a = b.
Proof.
  intros Heq. apply (append_inj_length a b s s); [|done].
  apply (f_equal String.length) in Heq. rewrite !length_append in Heq. lia.
Qed.

Lemma last_char_append (a t : string) :
  t ≠ "" → last_char (a +:+ t) = last_char t.
Proof.
  intros Ht. induction a as [|c a IH]; [done|]. simpl.
  destruct (a +:+ t) eqn:Heq; [|done].
  destruct a, t; done.
Qed.

Lemma substring_all (s : string) : String.substring 0 (String.length s) s = s.
Proof. induction s as [|c s IH]; simpl; [done|by rewrite IH]. Qed.

(** ** More on the Message log *)

Lemma slice_suffix {A} (start : Z) (l : list A) : slice start l `suffix_of` l.
Proof. apply suffix_drop. Qed.

Lemma append_message_suffix o m prev :
  append_message o m prev `suffix_of` prev ++ [m].
Proof. unfold append_message. case_decide; [apply slice_suffix|done]. Qed.

(** X1: whatever the cap, [addMessage] never edits, reorders or inserts:
    after any sequence of calls the log is a suffix of the old log followed
    by the Messages created, in call order. *)
Theorem message_log_is_suffix (o : UseChatOptions)
    (calls : list (val * Env)) (prev : list val) :
  addMessages o calls prev `suffix_of` prev ++ created calls.
Proof.
  revert prev. induction calls as [|c calls IH]; intros prev.
  - simpl. by rewrite (right_id_L [] (++)).
  - rewrite addMessages_cons. etrans; [apply IH|].
    replace (prev ++ created (c :: calls))
      with ((prev ++ [newMessage c.1 c.2]) ++ created calls)
      by (by rewrite <-(assoc_L (++))).
    apply suffix_app, append_message_suffix.
Qed.

(** X2: with a cap of at least 1, after at least one call the log is
    exactly the newest [cap] entries of the old log followed by the
    Messages created; it holds at most [cap] entries and ends with the
    Message created last. *)
Theorem message_log_keeps_newest (o : UseChatOptions)
    (calls : list (val * Env)) (prev : list val) :
  (1 ≤ maxHistoryLength o)%Z → calls ≠ [] →
  addMessages o calls prev
  = newest (Z.to_nat (maxHistoryLength o)) (prev ++ created calls)
  ∧ (Z.of_nat (length (addMessages o calls prev)) ≤ maxHistoryLength o)%Z
  ∧ last (addMessages o calls prev) = last (created calls).
Proof.
  intros Hcap Hne. split; [by apply addMessages_keeps_newest|].
  split; [by apply addMessages_length|].
  rewrite addMessages_keeps_newest by done.
  destruct (exists_last Hne) as (calls' & c & ->).
  unfold created. rewrite fmap_app. simpl. rewrite last_snoc.
  rewrite (assoc_L (++)). unfold newest. rewrite length_app. simpl.
  rewrite drop_app_le by lia. apply last_snoc.
Qed.

(** Fifty-five Messages on a fresh session with the default cap. *)
Lemma message_log_keeps_newest_witness :
  (1 ≤ maxHistoryLength default_options)%Z
  ∧ replicate 55 (hi_from_user, same_draw) ≠ []
  ∧ length (addMessages default_options (replicate 55 (hi_from_user, same_draw))
              [initial_message 0]) = 50.
Proof.
  assert (1 ≤ maxHistoryLength default_options)%Z as Hcap by (by vm_compute).
  assert (replicate 55 (hi_from_user, same_draw) ≠ []) as Hne by done.
  split; [exact Hcap|]. split; [exact Hne|].
  rewrite (proj1 (message_log_keeps_newest default_options _ [initial_message 0]
                    Hcap Hne)).
  rewrite length_newest, length_app. unfold created.
  rewrite length_fmap, length_replicate. reflexivity.
Defined.

(** X3: with a negative cap the guard always holds and [slice] gets a
    positive start: every call drops that many entries from the front of
    the extended log, so the log never grows, and a log shorter than the
    absolute value of the cap becomes empty, without the Message just
    returned. *)
Theorem message_log_negative_cap (o : UseChatOptions) (m : val) (prev : list val) :
  (maxHistoryLength o < 0)%Z →
  append_message o m prev = drop (Z.to_nat (- maxHistoryLength o)) (prev ++ [m])
  ∧ length (append_message o m prev) ≤ length prev
  ∧ ((Z.of_nat (length prev) < - maxHistoryLength o)%Z →
     append_message o m prev = []).
Proof.
  intros Hcap.
  assert (append_message o m prev
          = drop (Z.to_nat (- maxHistoryLength o)) (prev ++ [m])) as Heq.
  { unfold append_message. case_decide; [|lia]. apply slice_from_start. lia. }
  split; [done|]. rewrite Heq. split.
  - rewrite length_drop, length_app. simpl. lia.
  - intros Hshort. apply drop_ge. rewrite length_app. simpl. lia.
Qed.

Lemma message_log_negative_cap_witness :
  (maxHistoryLength (with_cap default_options (-2)) < 0)%Z
  ∧ append_message (with_cap default_options (-2))
      (newMessage hi_from_user same_draw) [initial_message 0] = [].
Proof.
  assert (maxHistoryLength (with_cap default_options (-2)) < 0)%Z as Hcap
    by (by vm_compute).
  split; [exact Hcap|].
  apply (message_log_negative_cap (with_cap default_options (-2)) _ _ Hcap).
  by vm_compute.
Defined.

(** ** More on the Exchange log *)

(** X4: with a cap of at least 2, on a log of whole pairs within the cap,
    any sequence of [updateConversationHistory] calls leaves the pairs of
    the latest calls, as many as [floor(cap / 2)], and never more entries
    than the cap. *)
Theorem exchange_log_keeps_newest_pairs (o : UseChatOptions)
    (calls prior : list (string * string)) :
  (2 ≤ maxHistoryLength o)%Z →
  (Z.of_nat (length prior) ≤ maxHistoryLength o `div` 2)%Z →
  updateConversations o calls (VArr (pairs prior))
  = Ok (VArr (pairs (newest (Z.to_nat (maxHistoryLength o `div` 2))
                        (prior ++ calls))))
  ∧ (Z.of_nat (length (pairs (newest (Z.to_nat (maxHistoryLength o `div` 2))
                                (prior ++ calls))))
     ≤ maxHistoryLength o)%Z.
Proof.
  intros Hcap Hprior.
  assert (1 ≤ maxHistoryLength o `div` 2)%Z as Hm
    by (apply Z.div_le_lower_bound; lia).
  destruct (updateConversations_keeps_newest_pairs o calls prior Hm Hprior)
    as (log & -> & -> & Hlen).
  done.
Qed.

Lemma exchange_log_keeps_newest_pairs_witness :
  (2 ≤ maxHistoryLength (with_cap default_options 2))%Z
  ∧ (Z.of_nat (length (@nil (string * string)))
     ≤ maxHistoryLength (with_cap default_options 2) `div` 2)%Z
  ∧ updateConversations (with_cap default_options 2)
      [("a", "b"); ("c", "d")] (VArr (pairs []))
    = Ok (VArr (pairs [("c", "d")])).
Proof.
  assert (2 ≤ maxHistoryLength (with_cap default_options 2))%Z as Hcap
    by (by vm_compute).
  assert (Z.of_nat (length (@nil (string * string)))
          ≤ maxHistoryLength (with_cap default_options 2) `div` 2)%Z as Hprior
    by (by vm_compute).
  split; [exact Hcap|]. split; [exact Hprior|].
  exact (proj1 (exchange_log_keeps_newest_pairs (with_cap default_options 2)
                  [("a", "b"); ("c", "d")] [] Hcap Hprior)).
Defined.

(** ** Storage keys *)

Lemma messages_key_inj o1 o2 :
  messages_key o1 = messages_key o2 → storageKey o1 = storageKey o2.
Proof. apply append_inj_r. Qed.

Lemma conversation_key_inj o1 o2 :
  conversation_key o1 = conversation_key o2 → storageKey o1 = storageKey o2.
Proof. apply append_inj_r. Qed.

Lemma messages_key_ne_conversation_key o1 o2 :
  messages_key o1 ≠ conversation_key o2.
Proof.
  intros Heq. apply (f_equal last_char) in Heq.
  unfold messages_key, conversation_key in Heq.
  by rewrite !last_char_append in Heq.
Qed.

(** X5: two hooks never share an entry unless they have the same
    [storageKey]: the messages keys (and the conversation keys) of two
    option sets are equal only when the storage keys are, a messages key is
    never a conversation key, and what one hook persists leaves the two
    entries of a hook with another storage key as they were. *)
Theorem storage_keys_isolated `{Host} (o1 o2 : UseChatOptions) :
  (messages_key o1 = messages_key o2 ↔ storageKey o1 = storageKey o2)
  ∧ (conversation_key o1 = conversation_key o2 ↔ storageKey o1 = storageKey o2)
  ∧ messages_key o1 ≠ conversation_key o2
  ∧ (∀ h st st',
        storageKey o1 ≠ storageKey o2 →
        persist o1 h st = Ok st' →
        items st' !! messages_key o2 = items st !! messages_key o2
        ∧ items st' !! conversation_key o2 = items st !! conversation_key o2).
Proof.
  split; [split; [apply messages_key_inj|unfold messages_key; by intros ->]|].
  split; [split; [apply conversation_key_inj|unfold conversation_key; by intros ->]|].
  split; [apply messages_key_ne_conversation_key|].
  intros h st st' Hne (_ & _ & _ & _ & Hother)%persist_Ok.
  split; apply Hother.
  - intros Heq. by apply Hne, messages_key_inj.
  - apply messages_key_ne_conversation_key.
  - intros Heq. symmetry in Heq. by apply messages_key_ne_conversation_key in Heq.
  - intros Heq. by apply Hne, conversation_key_inj.
Qed.

(** Another widget, keyed "other", keeps its transcript when the default
    one persists. *)
Lemma storage_keys_isolated_witness :
  storageKey default_options ≠ storageKey {| storageKey := "other"; maxHistoryLength := 50 |}
  ∧ ∃ st', @persist reference_host default_options fresh_hook
             (storage_of [("other-messages", "[]")]) = Ok st'
           ∧ items st' !! "other-messages" = Some "[]".
Proof.
  assert (storageKey default_options
          ≠ storageKey {| storageKey := "other"; maxHistoryLength := 50 |}) as Hne
    by discriminate.
  split; [exact Hne|].
  destruct (@persist_unlimited reference_host default_options fresh_hook
              (storage_of [("other-messages", "[]")]) eq_refl eq_refl) as [st' Hst'].
  exists st'. split; [exact Hst'|].
  destruct (@storage_keys_isolated reference_host default_options
              {| storageKey := "other"; maxHistoryLength := 50 |})
    as (_ & _ & _ & Hiso).
  destruct (Hiso _ _ _ Hne Hst') as [Hm _].
  etrans; [exact Hm|]. vm_compute. reflexivity.
Defined.

(** ** The first render *)

(** X6: with storage that can be accessed, when each of the two entries
    is missing or is the empty string, [initialize] returns the fresh
    session: the welcome Message alone and no Exchange. *)
Theorem initialize_without_entries `{Host}
    (o : UseChatOptions) (t : Z) (st : Storage) :
  accessible st = true →
  items st !! messages_key o = None ∨ items st !! messages_key o = Some "" →
  items st !! conversation_key o = None ∨ items st !! conversation_key o = Some "" →
  initialize o t st = Ok (fresh_session t).
Proof.
  intros Ha Hm Hc. unfold initialize, init_messages, init_conversation.
  rewrite !getItem_accessible, !bind_Ok by done.
  by destruct Hm as [-> | ->], Hc as [-> | ->].
Qed.

Lemma initialize_without_entries_witness :
  @initialize reference_host default_options 5
    (storage_of [(conversation_key default_options, "")])
  = Ok (fresh_session 5).
Proof.
  apply (@initialize_without_entries reference_host);
    [reflexivity|left; reflexivity|right; reflexivity].
Defined.

(** X7: with storage that can be accessed and has no quota, the first
    render returns a session and leaves the text of exactly that session
    under the two keys, whatever they held before (an entry that could
    not be parsed is overwritten); every other entry stays. *)
Theorem mount_overwrites `{Host} (o : UseChatOptions) (t : Z) (st : Storage) :
  accessible st = true → quota st = None →
  ∃ h st', mount o t st = Ok (h, st')
           ∧ initialize o t st = Ok h
           ∧ mirrors o h st'
           ∧ (∀ k, k ≠ messages_key o → k ≠ conversation_key o →
                   items st' !! k = items st !! k).
Proof.
  intros Ha Hq. unfold mount.
  destruct (initialize_accessible o t st Ha) as [h Hh].
  destruct (persist_unlimited o h st Ha Hq) as [st' Hst'].
  exists h, st'. rewrite Hh, bind_Ok, Hst', bind_Ok.
  apply persist_Ok in Hst' as (_ & ? & ? & ? & ?). done.
Qed.

Lemma mount_overwrites_witness :
  ∃ st', @mount reference_host default_options 5
           (storage_of [(messages_key default_options, "not json")])
         = Ok (fresh_session 5, st')
         ∧ items st' !! messages_key default_options
           = Some (@JSON_stringify reference_host (VArr [initial_message 5])).
Proof.
  destruct (@mount_overwrites reference_host default_options 5
              (storage_of [(messages_key default_options, "not json")])
              eq_refl eq_refl) as (h & st' & Hmount & Hinit & (_ & Hm & _) & _).
  assert (h = fresh_session 5) as ->.
  { vm_compute in Hinit. by injection Hinit as <-. }
  exists st'. split; [exact Hmount|exact Hm].
Defined.

(** X8: a conversation entry, not empty, that parses to a value that is
    neither an array nor a string is taken as the Exchange log, and from then on
    every [updateConversationHistory] throws [TypeError] when its update
    is applied, also after further [addMessage] calls; [clearChat] puts an
    array back. *)
Theorem non_iterable_conversation_blocks_updates `{Host}
    (o : UseChatOptions) (t : Z) (st : Storage) (c : string) (v : val) :
  accessible st = true →
  items st !! conversation_key o = Some c →
  c ≠ "" →
  JSON_parse c = Some v →
  (∀ xs, v ≠ VArr xs) → (∀ s, v ≠ VStr s) →
  ∃ h, initialize o t st = Ok h
       ∧ conversationHistory h = v
       ∧ (∀ u b, updateConversationHistory o u b h = Throw TypeError)
       ∧ (∀ message e u b,
             updateConversationHistory o u b (addMessage o message e h).2
             = Throw TypeError)
       ∧ (∀ d t' u b, returns (updateConversationHistory o u b (cleared_session d t'))).
Proof.
  intros Ha Hc Hne Hp Harr Hstr.
  assert (∀ u b, append_exchange o u b v = Throw TypeError) as Hthrow.
  { intros u b. unfold append_exchange.
    destruct v; try done; [by destruct (Hstr s)|by destruct (Harr xs)]. }
  destruct (initialize_accessible o t st Ha) as [h Hh]. exists h.
  split; [done|].
  assert (conversationHistory h = v) as Hv.
  { unfold initialize, init_messages, init_conversation in Hh.
    rewrite !getItem_accessible, !bind_Ok, Hc in Hh by done.
    injection Hh as <-. simpl. rewrite decide_False by done.
    unfold parse. by rewrite Hp. }
  split; [done|]. split; [|split].
  - intros u b. unfold updateConversationHistory. by rewrite Hv, Hthrow.
  - intros message e u b. unfold updateConversationHistory, addMessage.
    cbn [snd conversationHistory]. by rewrite Hv, Hthrow.
  - intros d t' u b. unfold updateConversationHistory, cleared_session.
    cbn [conversationHistory].
    destruct (append_exchange_suffix o u b []) as (k & -> & _).
    by eexists.
Qed.

(** The entry [{}], an object. *)
Lemma non_iterable_conversation_blocks_updates_witness :
  ∃ h, @initialize reference_host default_options 5
         (storage_of [(conversation_key default_options, "{}")]) = Ok h
       ∧ updateConversationHistory default_options "Hi" "Hello!" h = Throw TypeError.
Proof.
  destruct (@non_iterable_conversation_blocks_updates reference_host
              default_options 5
              (storage_of [(conversation_key default_options, "{}")])
              "{}" (VObj [])) as (h & Hh & _ & Hthrow & _);
    [reflexivity|vm_compute; reflexivity|discriminate|vm_compute; reflexivity
    |discriminate|discriminate|].
  exists h. split; [exact Hh|apply Hthrow].
Defined.

(** X9: a Message whose timestamp is an invalid date is written with
    [null] for timestamp, and reading it back gives the same Message with
    the epoch for timestamp, a valid date; no assumption on the host is
    needed. *)
Theorem invalid_timestamp_restored_as_epoch `{Host} (v : val) :
  is_message v = true →
  prop_of "timestamp" v = VDate InvalidDate →
  prop_of "timestamp" (jsonify v) = VNull
  ∧ restore_message (jsonify v) = Ok (revived v)
  ∧ prop_of "timestamp" (revived v) = VDate (TimeValue 0)
  ∧ (∀ k, k ≠ "timestamp" → prop_of k (revived v) = prop_of k v).
Proof.
  intros Hv Ht.
  assert (date_reads_back v) as Hback by (intros t0 Ht0; congruence).
  destruct (restore_message_jsonify v Hv Hback) as [_ Hr].
  destruct (timestamp_of_revived v Hv) as (d & Hd & Hrev).
  assert (d = InvalidDate) as -> by congruence.
  split; [|split; [done|split; [done|]]].
  - apply is_message_inv in Hv as (ps & d & -> & _ & Hps & _).
    rewrite jsonify_message_props by done. simpl in *.
    by rewrite get_prop_jsonify, Ht.
  - intros k Hk. by apply prop_of_revived.
Qed.

Lemma invalid_timestamp_restored_as_epoch_witness :
  is_message (VObj [("id", VStr "a"); ("timestamp", VDate InvalidDate)]) = true
  ∧ @restore_message reference_host
      (@jsonify reference_host
         (VObj [("id", VStr "a"); ("timestamp", VDate InvalidDate)]))
    = Ok (VObj [("id", VStr "a"); ("timestamp", VDate (TimeValue 0))]).
Proof.
  assert (is_message (VObj [("id", VStr "a"); ("timestamp", VDate InvalidDate)])
          = true) as Hv by (vm_compute; reflexivity).
  split; [exact Hv|].
  exact (proj1 (proj2 (@invalid_timestamp_restored_as_epoch reference_host
                         _ Hv eq_refl))).
Defined.

(** ** Storage follows the session *)

Section Mirror.
Context `{Host}.
Variable o : UseChatOptions.

Lemma step_then_render_mirrors c h st h' st' :
  mirrors o h st → step_then_render o c (h, st) = Ok (h', st') →
  mirrors o h' st' ∧ step o c h = Ok h'.
Proof.
  intros (Ha & Hm & Hc) Hstep. destruct c as [content sender e|u b|d t];
    simpl in Hstep.
  - apply bind_Ok_inv in Hstep as (st1 & Hset & [= <- <-]).
    apply setItem_Ok in Hset as (_ & ? & Hi & _).
    split; [|done]. split; [done|]. rewrite Hi. split.
    + apply lookup_insert_eq.
    + by rewrite lookup_insert_ne by apply messages_key_ne.
  - unfold updateConversationHistory_then_render in Hstep.
    destruct (updateConversationHistory o u b h) as [h1|] eqn:Hupd; [|done].
    rewrite !bind_Ok in Hstep. simpl in Hstep.
    apply bind_Ok_inv in Hstep as (st1 & Hset & [= <- <-]).
    apply setItem_Ok in Hset as (_ & ? & Hi & _).
    pose proof Hupd as Hupd'. unfold updateConversationHistory in Hupd.
    apply bind_Ok_inv in Hupd as (c' & _ & [= <-]).
    split; [|exact Hupd']. split; [done|]. rewrite Hi. split.
    + by rewrite lookup_insert_ne by (symmetry; apply messages_key_ne).
    + apply lookup_insert_eq.
  - apply bind_Ok_inv in Hstep as (st1 & Hclear & [= <- <-]).
    split; [|done].
    apply bind_Ok_inv in Hclear as (st2 & _ & (_ & ? & ? & ? & _)%persist_Ok).
    done.
Qed.

Lemma steps_then_render_mirrors cs h st h' st' :
  mirrors o h st → steps_then_render o cs (h, st) = Ok (h', st') →
  mirrors o h' st' ∧ steps o cs h = Ok h'.
Proof.
  revert h st. induction cs as [|c cs IH]; intros h st Hinv Hrun.
  - simpl in Hrun. by simplify_eq.
  - simpl in Hrun. apply bind_Ok_inv in Hrun as ([h1 st1] & Hstep & Hrun).
    destruct (step_then_render_mirrors _ _ _ _ _ Hinv Hstep) as [Hinv1 Hs].
    destruct (IH _ _ Hinv1 Hrun) as [? Hrest].
    split; [done|]. simpl. by rewrite Hs, bind_Ok.
Qed.
End Mirror.

(** X10: after the first render, and after every call of the chat surface
    with the render it causes, as long as no storage operation fails, the
    two entries in storage are the text of the two logs in memory; the
    state in memory is the one the calls give without storage. *)
Theorem storage_mirrors_session `{Host} (o : UseChatOptions) (t : Z)
    (st st0 st' : Storage) (cs : list call) (h0 h : Hook) :
  mount o t st = Ok (h0, st0) →
  steps_then_render o cs (h0, st0) = Ok (h, st') →
  mirrors o h st' ∧ steps o cs h0 = Ok h.
Proof.
  intros Hmount Hrun. eapply steps_then_render_mirrors; [|done].
  unfold mount in Hmount. apply bind_Ok_inv in Hmount as (h1 & _ & Hp).
  apply bind_Ok_inv in Hp as (st1 & Hp & [= <- <-]).
  apply persist_Ok in Hp as (_ & ? & ? & ? & _). done.
Qed.

Lemma storage_mirrors_session_witness :
  ∃ st0 h st',
    @mount reference_host default_options 5 (storage_of []) = Ok (fresh_session 5, st0)
    ∧ @steps_then_render reference_host default_options
        [AddMessage "Hi" user same_draw; UpdateConversationHistory "Hi" "Hello!"]
        (fresh_session 5, st0) = Ok (h, st')
    ∧ @mirrors reference_host default_options h st'.
Proof.
  destruct (@mount reference_host default_options 5 (storage_of []))
    as [[h0 st0]|] eqn:Hmount; [|by vm_compute in Hmount].
  assert (h0 = fresh_session 5) as ->.
  { vm_compute in Hmount. by injection Hmount as <- _. }
  destruct (@steps_then_render reference_host default_options
        [AddMessage "Hi" user same_draw; UpdateConversationHistory "Hi" "Hello!"]
        (fresh_session 5, st0)) as [[h st']|] eqn:Hrun.
  - exists st0, h, st'. split; [reflexivity|]. split; [exact Hrun|].
    exact (proj1 (@storage_mirrors_session reference_host _ _ _ _ _ _ _ _
                    Hmount Hrun)).
  - exfalso. vm_compute in Hmount. injection Hmount as <-.
    vm_compute in Hrun. discriminate.
Defined.

(** ** Sessions stay well formed *)

(** X11: from a fresh session, on an array every call of the chat surface
    returns, and after any sequence of calls every entry of the Message log
    is a Message (an object with a date for timestamp and primitive values
    elsewhere) and the Exchange log is an array of [{ role, content }]
    entries. *)
Theorem steps_keep_well_formed (o : UseChatOptions) (t : Z) (cs : list call) :
  ∃ h, steps o cs (fresh_session t) = Ok h ∧ well_formed h.
Proof.
  assert (∀ h, reachable o h → ∃ h', steps o cs h = Ok h' ∧ well_formed h') as Hgen.
  { induction cs as [|c cs IH]; intros h Hr.
    - exists h. split; [done|by eapply reachable_well_formed].
    - assert (∃ h1, step o c h = Ok h1) as [h1 Hstep].
      { destruct c as [content sender e|u b|d t']; simpl; [by eexists| |by eexists].
        destruct (reachable_well_formed o h Hr) as [_ (es & Hes & _)].
        unfold updateConversationHistory. rewrite Hes.
        destruct (append_exchange_suffix o u b es) as (k & -> & _). by eexists. }
      destruct (IH h1) as (h' & Hrun & Hwf); [by eapply reachable_step|].
      exists h'. split; [|done]. simpl. by rewrite Hstep, bind_Ok. }
  apply Hgen, reachable_fresh.
Qed.

(** ** The chat surface *)

Section ChatSurfaceProperties.
Variable o : UseChatOptions.
Variable trim : string → string.

Lemma chat_step_unauthenticated ev c h :
  is_clear ev = false →
  ∃ c', chat_step o trim false ev (c, h) = Ok (c', h)
        ∧ isTyping c' = isTyping c ∧ isOpen c' = isOpen c.
Proof.
  intros Hev. destruct ev as [input e1 r e2|concerns e1 r e2|d t]; [| |done];
    simpl; by eexists.
Qed.

Lemma chat_steps_unauthenticated evs c h :
  forallb (λ ev, negb (is_clear ev)) evs = true →
  ∃ c', chat_steps o trim false evs (c, h) = Ok (c', h)
        ∧ isTyping c' = isTyping c ∧ isOpen c' = isOpen c.
Proof.
  revert c. induction evs as [|ev evs IH]; intros c Hevs.
  - by exists c.
  - apply andb_prop in Hevs as [Hev Hevs]. apply negb_true_iff in Hev.
    destruct (chat_step_unauthenticated ev c h Hev) as (c1 & Hstep & Ht1 & Ho1).
    destruct (IH c1 Hevs) as (c' & Hrun & Ht & Ho).
    exists c'. split; [|split; congruence].
    cbn [chat_steps]. by rewrite Hstep, bind_Ok.
Qed.
End ChatSurfaceProperties.

(** X12: for a user who is not logged in, sending messages and asking for
    advice, in any number and order, changes neither the Message log nor
    the Exchange log, and the typing indicator stays as it was: both
    handlers stop at their first test. *)
Theorem unauthenticated_user_changes_nothing
    (o : UseChatOptions) (trim : string → string)
    (evs : list chat_event) (c : ChatBot) (h : Hook) :
  forallb (λ ev, negb (is_clear ev)) evs = true →
  ∃ c', chat_steps o trim false evs (c, h) = Ok (c', h)
        ∧ isTyping c' = isTyping c ∧ isOpen c' = isOpen c.
Proof. apply chat_steps_unauthenticated. Qed.

Lemma unauthenticated_user_changes_nothing_witness :
  ∃ c', @chat_steps default_options id false
          [SendMessage "Hi" same_draw (Resolved true "Hello!") same_draw;
           AnalysisAdvice ["Acne"] same_draw Rejected same_draw]
          ({| isOpen := true; inputValue := ""; isTyping := false; error := None |},
           fresh_hook)
        = Ok (c', fresh_hook).
Proof.
  destruct (unauthenticated_user_changes_nothing default_options id
              [SendMessage "Hi" same_draw (Resolved true "Hello!") same_draw;
               AnalysisAdvice ["Acne"] same_draw Rejected same_draw]
              {| isOpen := true; inputValue := ""; isTyping := false; error := None |}
              fresh_hook eq_refl) as (c' & Hrun & _).
  exists c'. exact Hrun.
Defined.

(** X13: a text that trims to the empty string is not sent: the handler
    returns before any state update, so the two logs, the typing indicator
    and, for a logged-in user, the error stay as they were. *)
Theorem blank_input_is_ignored
    (o : UseChatOptions) (trim : string → string) (isAuthenticated : bool)
    (input : string) (e1 e2 : Env) (r : outcome) (c : ChatBot) (h : Hook) :
  trim input = "" →
  ∃ c', chat_step o trim isAuthenticated (SendMessage input e1 r e2) (c, h)
        = Ok (c', h)
        ∧ isTyping c' = isTyping c
        ∧ inputValue c' = input
        ∧ (isAuthenticated = true → error c' = error c).
Proof.
  intros Hblank. destruct isAuthenticated; simpl.
  - unfold handleSendMessage_request. simpl. rewrite Hblank. simpl. by eexists.
  - by eexists.
Qed.

Lemma blank_input_is_ignored_witness :
  ∃ c', @chat_step default_options id true
          (SendMessage "" same_draw (Resolved true "Hello!") same_draw)
          ({| isOpen := true; inputValue := ""; isTyping := false; error := None |},
           fresh_hook)
        = Ok (c', fresh_hook).
Proof.
  destruct (blank_input_is_ignored default_options id true
              "" same_draw same_draw (Resolved true "Hello!")
              {| isOpen := true; inputValue := ""; isTyping := false; error := None |}
              fresh_hook eq_refl) as (c' & Hstep & _).
  exists c'. exact Hstep.
Defined.

Lemma append_message_twice_suffix o m1 m2 prev :
  (0 ≤ maxHistoryLength o)%Z → maxHistoryLength o ≠ 1%Z →
  [m1; m2] `suffix_of` append_message o m2 (append_message o m1 prev).
Proof.
  intros Hcap Hne. destruct (decide (maxHistoryLength o = 0%Z)) as [H0|?].
  { rewrite !append_message_cap_0 by done. exists prev.
    by rewrite <-(assoc_L (++)). }
  rewrite !append_message_newest by lia.
  rewrite newest_newest_app, <-(assoc_L (++)). simpl.
  unfold newest. rewrite length_app. simpl.
  exists (drop (length prev + 2 - Z.to_nat (maxHistoryLength o)) prev).
  rewrite drop_app_le by lia. done.
Qed.

(** X14: a run of [handleSendMessage] for a logged-in user, a text that
    does not trim to the empty string and a cap that is not negative.  Up
    to the [await] it puts the trimmed text as the last Message, empties
    the input, clears the error and turns the typing indicator on; the
    request carries the text and the Exchange log of that moment.  From
    the [await] on, whatever the session has become in the meantime (a
    click on the clear button, an advice run), as long as its Exchange log
    is an array, it puts one bot Message as the last Message, the reply on
    success and the fixed apology otherwise, and turns the typing
    indicator off; on success the Exchange log of that moment gets the
    pair of text and reply, otherwise it is untouched and the error is
    set.  When nothing changed the session in between, the run is a step
    of the chat surface, and with a cap other than 1 its last two
    Messages are the text and the bot Message. *)
Theorem completed_send_takes_turns
    (o : UseChatOptions) (trim : string → string)
    (input : string) (e1 e2 : Env) (r : outcome) (c : ChatBot) (h : Hook) :
  trim input ≠ "" →
  (0 ≤ maxHistoryLength o)%Z →
  ∃ c1 h1,
    handleSendMessage_request o trim true e1 (setInputValue input c) h
    = (c1, h1, Some (trim input, conversationHistory h))
    ∧ last (messages h1) = Some (newMessage (message_of (trim input) user) e1)
    ∧ conversationHistory h1 = conversationHistory h
    ∧ inputValue c1 = "" ∧ isTyping c1 = true ∧ error c1 = None
    ∧ ∀ c2 h2 es,
        conversationHistory h2 = VArr es →
        ∃ c' h',
          handleSendMessage_response o (trim input) r e2 c2 h2 = Ok (c', h')
          ∧ last (messages h')
            = Some (newMessage (message_of (send_reply r) bot) e2)
          ∧ isTyping c' = false ∧ inputValue c' = inputValue c2
          ∧ match r with
            | Resolved true message =>
                error c' = error c2
                ∧ append_exchange o (trim input) message (VArr es)
                  = Ok (conversationHistory h')
            | _ => is_Some (error c') ∧ conversationHistory h' = VArr es
            end
          ∧ (c2 = c1 → h2 = h1 →
             chat_step o trim true (SendMessage input e1 r e2) (c, h)
             = Ok (c', h')
             ∧ (maxHistoryLength o ≠ 1%Z →
                [newMessage (message_of (trim input) user) e1;
                 newMessage (message_of (send_reply r) bot) e2]
                  `suffix_of` messages h')).
Proof.
  intros Htext Hcap.
  assert (handleSendMessage_request o trim true e1 (setInputValue input c) h
          = (setIsTyping true (setInputValue "" (setError None (setInputValue input c))),
             (addMessage o (message_of (trim input) user) e1 h).2,
             Some (trim input, conversationHistory h))) as Hreq.
  { unfold handleSendMessage_request.
    cbn [negb inputValue setInputValue]. by rewrite decide_False. }
  do 2 eexists. split; [exact Hreq|].
  split; [by apply last_append_message|].
  split; [done|]. split; [done|]. split; [done|]. split; [done|].
  intros c2 h2 es Hes.
  assert (∃ c' h',
    handleSendMessage_response o (trim input) r e2 c2 h2 = Ok (c', h')
    ∧ messages h' = append_message o
                      (newMessage (message_of (send_reply r) bot) e2) (messages h2)
    ∧ isTyping c' = false ∧ inputValue c' = inputValue c2
    ∧ match r with
      | Resolved true message =>
          error c' = error c2
          ∧ append_exchange o (trim input) message (VArr es)
            = Ok (conversationHistory h')
      | _ => is_Some (error c') ∧ conversationHistory h' = VArr es
      end) as (c' & h' & Hres & Hm & Htyping & Hinput & Hr).
  { destruct r as [[|] message|]; cbn [handleSendMessage_response send_reply].
    - unfold updateConversationHistory, addMessage. cbn [snd conversationHistory].
      rewrite Hes.
      destruct (append_exchange_suffix o (trim input) message es) as (k & Hk & _).
      rewrite Hk, bind_Ok. by do 2 eexists.
    - do 2 eexists. split; [done|]. split; [done|]. split; [done|].
      split; [done|]. split; [by eexists|done].
    - do 2 eexists. split; [done|]. split; [done|]. split; [done|].
      split; [done|]. split; [by eexists|done]. }
  exists c', h'. split; [done|].
  split; [rewrite Hm; by apply last_append_message|].
  split; [done|]. split; [done|]. split; [done|].
  intros -> ->. split.
  - cbn [chat_step fst snd]. by rewrite Hreq.
  - intros Hne. rewrite Hm. cbn [addMessage snd messages].
    by apply append_message_twice_suffix.
Qed.

(** The first exchange of a session, with nothing in between. *)
Lemma completed_send_takes_turns_witness :
  ∃ c' h', @chat_step default_options id true
             (SendMessage "Hi" same_draw (Resolved true "Hello!") same_draw)
             ({| isOpen := true; inputValue := ""; isTyping := false; error := None |},
              fresh_hook)
           = Ok (c', h')
           ∧ conversationHistory h'
             = VArr [exchange "user" "Hi"; exchange "assistant" "Hello!"].
Proof.
  destruct (completed_send_takes_turns default_options id "Hi" same_draw same_draw
              (Resolved true "Hello!")
              {| isOpen := true; inputValue := ""; isTyping := false; error := None |}
              fresh_hook)
    as (c1 & h1 & _ & _ & Hconv1 & _ & _ & _ & Hresponse);
    [discriminate|by vm_compute|].
  destruct (Hresponse c1 h1 [] Hconv1)
    as (c' & h' & _ & _ & _ & _ & (_ & Hconv) & Hstep).
  exists c', h'. split; [exact (proj1 (Hstep eq_refl eq_refl))|].
  change (Ok (VArr [exchange "user" "Hi"; exchange "assistant" "Hello!"])
          = Ok (conversationHistory h')) in Hconv.
  by injection Hconv as <-.
Defined.

(** ** The Exchange log under the chat surface *)

Section Answered.
Variable o : UseChatOptions.
Variable trim : string → string.
Variable a : bool.

Lemma answered_inv_message acc h content sender e :
  answered_inv o acc h →
  answered_inv o acc (addMessage o (message_of content sender) e h).2.
Proof.
  intros [Hm Hc]. split; [|done]. cbn [addMessage snd messages].
  apply forallb_append_message; [apply is_message_newMessage|done].
Qed.

Lemma answered_inv_exchange acc h u b :
  answered_inv o acc h →
  ∃ h', updateConversationHistory o u b h = Ok h'
        ∧ answered_inv o (acc ++ [(u, b)]) h'.
Proof.
  intros (Hm & kept & Hc & Hsuf & Hfit).
  unfold updateConversationHistory. rewrite Hc.
  destruct (append_exchange_pairs o u b kept) as [k Hk].
  destruct (decide (Z.of_nat (length (acc ++ [(u, b)]))
                    ≤ maxHistoryLength o `div` 2)%Z)
    as [Hle|Hgt].
  - rewrite length_app in Hle. simpl in Hle.
    rewrite (Hfit ltac:(lia)) in *.
    rewrite append_exchange_keep
      by (right; rewrite length_pairs; lia).
    rewrite bind_Ok. eexists. split; [done|]. split; [done|].
    exists (acc ++ [(u, b)]). cbn [conversationHistory].
    by rewrite pairs_snoc.
  - rewrite Hk, bind_Ok. eexists. split; [done|]. split; [done|].
    eexists. split; [done|]. split; [|done].
    etrans; [apply suffix_drop|]. by apply suffix_app.
Qed.

Lemma chat_step_answered ev c h acc :
  answered_inv o acc h →
  ∃ c' h', chat_step o trim a ev (c, h) = Ok (c', h')
    ∧ answered_inv o (if is_clear ev then []
                    else acc ++ option_list (answered trim a ev)) h'
    ∧ (isTyping c = false → isTyping c' = false).
Proof.
  intros Hinv.
  assert (answered_inv o (acc ++ []) h) as Hinv0
    by (by rewrite (right_id_L [] (++))).
  destruct ev as [input e1 r e2|concerns e1 r e2|d t];
    cbn [chat_step is_clear]; unfold answered.
  - unfold handleSendMessage_request. destruct a; cbn [negb fst snd];
      [|by do 2 eexists].
    cbn [inputValue setInputValue]. case_decide as Hblank.
    { destruct r as [[|]?|]; by do 2 eexists. }
    destruct r as [[|] message|]; cbn [handleSendMessage_response option_list].
    + pose proof (answered_inv_message _ _ (trim input) user e1 Hinv) as H1.
      pose proof (answered_inv_message _ _ message bot e2 H1) as H2.
      destruct (answered_inv_exchange _ _ (trim input) message H2)
        as (h' & -> & Hinv').
      rewrite bind_Ok. by do 2 eexists.
    + do 2 eexists. split; [done|]. split; [|done].
      by apply answered_inv_message, answered_inv_message.
    + do 2 eexists. split; [done|]. split; [|done].
      by apply answered_inv_message, answered_inv_message.
  - unfold handleAnalysisAdvice_request. destruct a; cbn [negb fst snd];
      [|by do 2 eexists].
    destruct r as [[|] advice|]; cbn [handleAnalysisAdvice_response option_list].
    + pose proof (answered_inv_message _ _ (advice_question concerns) user e1 Hinv)
        as H1.
      pose proof (answered_inv_message _ _ advice bot e2 H1) as H2.
      destruct (answered_inv_exchange _ _ (advice_question concerns) advice H2)
        as (h' & -> & Hinv').
      rewrite bind_Ok. by do 2 eexists.
    + do 2 eexists. split; [done|]. split; [|done].
      by apply answered_inv_message, answered_inv_message.
    + do 2 eexists. split; [done|]. split; [|done].
      by apply answered_inv_message, answered_inv_message.
  - do 2 eexists. split; [done|]. split; [|done].
    split; [done|]. by exists [].
Qed.

Lemma chat_steps_answered evs c h acc :
  answered_inv o acc h →
  ∃ c' h', chat_steps o trim a evs (c, h) = Ok (c', h')
    ∧ answered_inv o
        (foldl (λ acc ev, match ev with
                          | ClearChatClicked _ _ => []
                          | _ => acc ++ option_list (answered trim a ev)
                          end) acc evs) h'
    ∧ (isTyping c = false → isTyping c' = false).
Proof.
  revert c h acc. induction evs as [|ev evs IH]; intros c h acc Hinv.
  - by exists c, h.
  - destruct (chat_step_answered ev c h acc Hinv) as (c1 & h1 & Hstep & Hinv1 & Ht1).
    destruct (IH c1 h1 _ Hinv1) as (c' & h' & Hrun & Hinv' & Ht).
    exists c', h'. cbn [chat_steps foldl]. rewrite Hstep, bind_Ok.
    split; [done|]. split; [|auto].
    by destruct ev.
Qed.
End Answered.

(** X15: from a fresh session, after any sequence of completed runs of the
    handlers (send, advice, clear), every run returns, the typing indicator
    is off if it was, every Message is well formed, and the Exchange log is
    made of whole pairs: the question and the answer of the latest runs
    that got an answer since the chat was last cleared, all of them while
    they fit the cap.  A run that failed, was blank or was refused leaves
    no entry. *)
Theorem exchange_log_holds_answered_questions
    (o : UseChatOptions) (trim : string → string) (isAuthenticated : bool)
    (evs : list chat_event) (c : ChatBot) (t : Z) :
  ∃ c' h' kept,
    chat_steps o trim isAuthenticated evs (c, fresh_session t) = Ok (c', h')
    ∧ conversationHistory h' = VArr (pairs kept)
    ∧ kept `suffix_of` answered_since_clear trim isAuthenticated evs
    ∧ ((Z.of_nat (length (answered_since_clear trim isAuthenticated evs))
        ≤ maxHistoryLength o `div` 2)%Z →
       kept = answered_since_clear trim isAuthenticated evs)
    ∧ forallb is_message (messages h') = true
    ∧ (isTyping c = false → isTyping c' = false).
Proof.
  destruct (chat_steps_answered o trim isAuthenticated evs c (fresh_session t) [])
    as (c' & h' & Hrun & (Hm & kept & Hc & Hsuf & Hfit) & Ht).
  { split; [done|]. exists []. by repeat split. }
  by exists c', h', kept.
Qed.

(** A question answered, a question that failed, a question answered. *)
Lemma exchange_log_holds_answered_questions_witness :
  ∃ c' h',
    @chat_steps default_options id true
      [SendMessage "Hi" same_draw (Resolved true "Hello!") same_draw;
       SendMessage "Why?" same_draw Rejected same_draw;
       AnalysisAdvice ["Acne"] same_draw (Resolved true "Cleanse.") same_draw]
      ({| isOpen := true; inputValue := ""; isTyping := false; error := None |},
       fresh_session 0)
    = Ok (c', h')
    ∧ conversationHistory h'
      = VArr (pairs [("Hi", "Hello!"); (advice_question ["Acne"], "Cleanse.")]).
Proof.
  destruct (exchange_log_holds_answered_questions default_options id true
      [SendMessage "Hi" same_draw (Resolved true "Hello!") same_draw;
       SendMessage "Why?" same_draw Rejected same_draw;
       AnalysisAdvice ["Acne"] same_draw (Resolved true "Cleanse.") same_draw]
      {| isOpen := true; inputValue := ""; isTyping := false; error := None |} 0)
    as (c' & h' & kept & Hrun & Hc & _ & Hfit & _).
  exists c', h'. split; [exact Hrun|].
  rewrite Hc, Hfit; [reflexivity|by vm_compute].
Defined.

(** ** The welcome of an opened chat *)

(** X16: the effect that welcomes an opened chat.  With a cap that is not
    negative, an open chat has a Message after the effect; an empty
    transcript then holds the welcome alone; and running the effect again
    changes nothing, so the welcome is given once. *)
Theorem open_chat_is_welcomed_once
    (o : UseChatOptions) (e1 e2 : Env) (c : ChatBot) (h : Hook) :
  (0 ≤ maxHistoryLength o)%Z →
  isOpen c = true →
  messages (open_effect o e1 c h) ≠ []
  ∧ (messages h = [] →
     messages (open_effect o e1 c h) = [newMessage (message_of open_welcome bot) e1])
  ∧ open_effect o e2 c (open_effect o e1 c h) = open_effect o e1 c h.
Proof.
  intros Hcap Hopen.
  assert (messages h = [] →
          messages (open_effect o e1 c h)
          = [newMessage (message_of open_welcome bot) e1]) as Hfirst.
  { intros Hnil. unfold open_effect. rewrite Hopen, Hnil.
    cbn [length andb]. rewrite bool_decide_eq_true_2 by done.
    cbn [addMessage snd messages]. rewrite Hnil.
    unfold append_message. cbn [app length].
    case_decide as Hlen; [|done].
    replace (maxHistoryLength o) with 0%Z by lia. apply slice_0. }
  assert (messages (open_effect o e1 c h) ≠ []) as Hne.
  { destruct (messages h) as [|m ms] eqn:Hm; [by rewrite Hfirst|].
    unfold open_effect. rewrite Hm. cbn [length].
    rewrite bool_decide_eq_false_2, andb_false_r by done. by rewrite Hm. }
  split; [done|]. split; [done|].
  unfold open_effect at 1.
  destruct (messages (open_effect o e1 c h)) as [|m ms]; [done|].
  cbn [length]. by rewrite bool_decide_eq_false_2, andb_false_r.
Qed.

Lemma open_chat_is_welcomed_once_witness :
  messages (open_effect default_options same_draw
              {| isOpen := true; inputValue := ""; isTyping := false; error := None |}
              {| messages := []; conversationHistory := VArr [] |})
  = [newMessage (message_of open_welcome bot) same_draw].
Proof.
  destruct (open_chat_is_welcomed_once default_options same_draw same_draw
              {| isOpen := true; inputValue := ""; isTyping := false; error := None |}
              {| messages := []; conversationHistory := VArr [] |})
    as (_ & Hfirst & _); [by vm_compute|reflexivity|].
  by apply Hfirst.
Defined.

(** ** The quick actions *)

(** X17: for an analysis with at least one concern, [getQuickActions]
    offers one question for each kind of concern that is mentioned, then
    the two general questions, cut to four: the number of questions is the
    number of kinds plus two, at most four; the question about products
    to avoid is offered unless all four kinds are mentioned, and the
    question about a routine only when at most two are. *)
Theorem quick_actions_cut_to_four
    (toLowerCase : string → string) (concerns : list string) :
  concerns ≠ [] →
  length (getQuickActions toLowerCase (Some concerns))
  = (kinds toLowerCase concerns + 2) `min` 4
  ∧ ("What products should I avoid?" ∈ getQuickActions toLowerCase (Some concerns)
     ↔ kinds toLowerCase concerns ≤ 3)
  ∧ ("Create a skincare routine for me" ∈ getQuickActions toLowerCase (Some concerns)
     ↔ kinds toLowerCase concerns ≤ 2).
Proof.
  intros Hne. unfold getQuickActions, kinds.
  rewrite bool_decide_eq_true_2 by (destruct concerns; [done|simpl; lia]).
  rewrite !filter_cons, filter_nil.
  destruct (mentions toLowerCase "acne" concerns),
           (mentions toLowerCase "dry" concerns),
           (mentions toLowerCase "oily" concerns),
           (mentions toLowerCase "dark" concerns);
    apply (bool_decide_unpack _); vm_compute; exact I.
Qed.

Lemma quick_actions_cut_to_four_witness :
  length (getQuickActions id (Some ["acne"; "dry skin"])) = 4.
Proof.
  destruct (quick_actions_cut_to_four id ["acne"; "dry skin"]) as (Hlen & _);
    [discriminate|].
  rewrite Hlen. reflexivity.
Defined.

(** ** The session in storage (services/api.ts) *)

Lemma longer_key_ne (a t s : string) :
  String.length s < String.length t → a +:+ t ≠ s.
Proof.
  intros Hlen Heq. apply (f_equal String.length) in Heq.
  rewrite length_append in Heq. lia.
Qed.

Lemma chat_keys_ne_auth_keys o :
  messages_key o ≠ "token" ∧ messages_key o ≠ "user"
  ∧ conversation_key o ≠ "token" ∧ conversation_key o ≠ "user".
Proof. repeat split; apply longer_key_ne; simpl; lia. Qed.

Lemma logout_Ok st st' :
  logout st = Ok st' →
  accessible st = true ∧ accessible st' = true
  ∧ items st' = delete "user" (delete "token" (items st)).
Proof.
  unfold logout, removeItem. destruct (accessible st); [|done].
  simpl. intros [= <-]. done.
Qed.

Lemma initialize_reads_chat_keys `{Host} o t st st' :
  accessible st' = accessible st →
  items st' !! messages_key o = items st !! messages_key o →
  items st' !! conversation_key o = items st !! conversation_key o →
  initialize o t st' = initialize o t st.
Proof.
  intros Hacc Hm Hc.
  unfold initialize, init_messages, init_conversation, getItem.
  by rewrite Hacc, Hm, Hc.
Qed.

Section ApiProperties.
Context `{Host}.

(** X18: after [logout] nobody is logged in: [isAuthenticated] is false,
    [getCurrentUser] is [null], requests go out with their headers
    unchanged; and every other entry of storage is as it was. *)
Theorem logout_ends_session (st : Storage) (headers : gmap string string) :
  accessible st = true →
  ∃ st', logout st = Ok st'
    ∧ isAuthenticated st' = Ok false
    ∧ getCurrentUser st' = Ok VNull
    ∧ request_interceptor st' headers = Ok headers
    ∧ ∀ k, k ≠ "token" → k ≠ "user" → items st' !! k = items st !! k.
Proof.
  intros Hacc. unfold logout.
  rewrite removeItem_accessible, bind_Ok, removeItem_accessible by done.
  eexists. split; [done|].
  unfold isAuthenticated, getCurrentUser, request_interceptor, getItem.
  cbn [accessible items].
  rewrite lookup_delete_ne, !lookup_delete_eq by done.
  repeat split. intros k Ht Hu. by rewrite !lookup_delete_ne.
Qed.

(** X19: the error handler of the response interceptor logs out on status
    401 and on no other: on 401 storage is left as [logout] leaves it and
    the page is sent to the login route; on any other status, and when the
    error has no response, storage and location are untouched. *)
Theorem unauthorized_response_logs_out
    (status : option Z) (st : Storage) (href : string) :
  accessible st = true →
  ∃ st' href', response_error_interceptor status st href = Ok (st', href')
    ∧ if decide (status = Some 401%Z)
      then logout st = Ok st' ∧ href' = "/login"
           ∧ isAuthenticated st' = Ok false
      else st' = st ∧ href' = href.
Proof.
  intros Hacc. unfold response_error_interceptor.
  case_decide; [|by do 2 eexists].
  unfold logout. rewrite (removeItem_accessible "token") by done.
  rewrite !bind_Ok, removeItem_accessible by done.
  do 2 eexists. split; [done|]. split; [done|]. split; [done|].
  unfold isAuthenticated, getItem. cbn [accessible items].
  by rewrite lookup_delete_ne, lookup_delete_eq.
Qed.

(** X20: logging out does not touch the chat: a mount after [logout]
    restores the session that a mount before it restores. *)
Theorem logout_keeps_chat (o : UseChatOptions) (t : Z) (st st' : Storage) :
  logout st = Ok st' →
  initialize o t st' = initialize o t st.
Proof.
  intros (Hacc & Hacc' & Hitems)%logout_Ok.
  destruct (chat_keys_ne_auth_keys o) as (? & ? & ? & ?).
  apply initialize_reads_chat_keys; [congruence|..];
    by rewrite Hitems, !lookup_delete_ne.
Qed.

(** X21: what [login] stores is what the session functions read: when the
    user object of the response has a JSON text that reads back, then
    after the two [setItem] calls [getCurrentUser] returns that object,
    [isAuthenticated] says whether the token is a non-empty string, and
    with such a token every request carries it as a bearer token. *)
Theorem login_then_current_user
    (access_token : string) (user : val) (st st' : Storage) :
  jsonify user ≠ VUndefined →
  reads_back (jsonify user) →
  login_response access_token user st = Ok st' →
  getCurrentUser st' = Ok (jsonify user)
  ∧ isAuthenticated st' = Ok (bool_decide (access_token ≠ ""))
  ∧ ∀ headers,
      access_token ≠ "" →
      request_interceptor st' headers
      = Ok (<["Authorization" := "Bearer " +:+ access_token]> headers).
Proof.
  intros Hdef [Htext Hparse] Hlogin.
  apply bind_Ok_inv in Hlogin as (st1 & (_ & _ & Hi1 & _)%setItem_Ok
                                      & (_ & Hacc & Hi2 & _)%setItem_Ok).
  assert (JSON_stringify user = JSON_text (jsonify user)) as Hs
    by (unfold JSON_stringify; by destruct (jsonify user)).
  unfold getCurrentUser, isAuthenticated, request_interceptor, getItem.
  rewrite Hacc, Hi2, Hi1, Hs. cbn [mbind result_bind].
  rewrite lookup_insert_eq, lookup_insert_ne, lookup_insert_eq by done.
  split; [|split; [done|]].
  - rewrite decide_False by done. unfold parse. by rewrite Hparse.
  - intros headers Htok. by rewrite decide_False.
Qed.

(** X22: [login] does not check the response.  When it has no user,
    [JSON.stringify] gives [undefined], [setItem] stores the word, and on a
    host whose [JSON.parse] rejects that word the user counts as logged in
    while [getCurrentUser] throws. *)
Theorem login_without_user (access_token : string) (st st' : Storage) :
  JSON_parse "undefined" = None →
  access_token ≠ "" →
  login_response access_token VUndefined st = Ok st' →
  isAuthenticated st' = Ok true
  ∧ getCurrentUser st' = Throw SyntaxError.
Proof.
  intros Hparse Htok Hlogin.
  apply bind_Ok_inv in Hlogin as (st1 & (_ & _ & Hi1 & _)%setItem_Ok
                                      & (_ & Hacc & Hi2 & _)%setItem_Ok).
  unfold getCurrentUser, isAuthenticated, getItem.
  rewrite Hacc, Hi2, Hi1. cbn [mbind result_bind].
  rewrite lookup_insert_eq, lookup_insert_ne, lookup_insert_eq by done.
  split.
  - by rewrite bool_decide_eq_true_2.
  - change (JSON_stringify VUndefined) with "undefined".
    rewrite decide_False by done. unfold parse. by rewrite Hparse.
Qed.

(** X23: the request interceptor and [isAuthenticated] agree: a request
    that comes without an [Authorization] header leaves with one exactly
    when [isAuthenticated] is true, and its other headers are unchanged. *)
Theorem request_carries_token_iff_authenticated
    (st : Storage) (headers : gmap string string) :
  accessible st = true →
  headers !! "Authorization" = None →
  ∃ b headers', isAuthenticated st = Ok b
    ∧ request_interceptor st headers = Ok headers'
    ∧ (is_Some (headers' !! "Authorization") ↔ b = true)
    ∧ ∀ k, k ≠ "Authorization" → headers' !! k = headers !! k.
Proof.
  intros Hacc Hnone.
  unfold isAuthenticated, request_interceptor, getItem. rewrite Hacc, !bind_Ok.
  do 2 eexists. split; [done|]. split; [done|].
  destruct (items st !! "token") as [tok|].
  - case_decide as Htok.
    + rewrite bool_decide_eq_false_2 by naive_solver.
      rewrite Hnone. split; [|done]. split; [by intros [??]|done].
    + rewrite bool_decide_eq_true_2 by done. rewrite lookup_insert_eq.
      split; [done|]. intros k Hk. by rewrite lookup_insert_ne.
  - rewrite Hnone. split; [|done]. split; [by intros [??]|done].
Qed.
End ApiProperties.

Lemma logout_ends_session_witness :
  ∃ st', logout (storage_of [("token", "abc"); ("user", "{}")]) = Ok st'
         ∧ @getCurrentUser reference_host st' = Ok VNull.
Proof.
  destruct (@logout_ends_session reference_host
              (storage_of [("token", "abc"); ("user", "{}")]) ∅ eq_refl)
    as (st' & Hout & _ & Huser & _).
  by exists st'.
Defined.

Lemma unauthorized_response_logs_out_witness :
  ∃ st', response_error_interceptor (Some 401%Z)
           (storage_of [("token", "abc")]) "/history"
         = Ok (st', "/login").
Proof.
  destruct (unauthorized_response_logs_out (Some 401%Z)
              (storage_of [("token", "abc")]) "/history" eq_refl)
    as (st' & href' & Hr & Hcase).
  rewrite decide_True in Hcase by done. destruct Hcase as (_ & -> & _).
  by exists st'.
Defined.

Lemma logout_keeps_chat_witness :
  ∃ st', logout (storage_of [("token", "abc");
                             (conversation_key default_options, "[]")]) = Ok st'
         ∧ @initialize reference_host default_options 5 st'
           = @initialize reference_host default_options 5
               (storage_of [("token", "abc");
                            (conversation_key default_options, "[]")]).
Proof.
  eexists. split; [reflexivity|].
  apply (@logout_keeps_chat reference_host default_options 5
           (storage_of [("token", "abc");
                        (conversation_key default_options, "[]")])).
  reflexivity.
Defined.

Lemma login_then_current_user_witness :
  ∃ st', @login_response reference_host "abc"
           (VObj [("id", VStr "u1"); ("username", VStr "ann")]) (storage_of [])
         = Ok st'
         ∧ @getCurrentUser reference_host st'
           = Ok (VObj [("id", VStr "u1"); ("username", VStr "ann")]).
Proof.
  destruct (@login_response reference_host "abc"
              (VObj [("id", VStr "u1"); ("username", VStr "ann")]) (storage_of []))
    as [st'|] eqn:Hlogin; [|by vm_compute in Hlogin].
  exists st'. split; [reflexivity|].
  apply (@login_then_current_user reference_host "abc"
           (VObj [("id", VStr "u1"); ("username", VStr "ann")])
           (storage_of []) st');
    [by vm_compute|split; by vm_compute|exact Hlogin].
Defined.

Lemma login_without_user_witness :
  ∃ st', @login_response reference_host "abc" VUndefined (storage_of []) = Ok st'
         ∧ @getCurrentUser reference_host st' = Throw SyntaxError.
Proof.
  destruct (@login_response reference_host "abc" VUndefined (storage_of []))
    as [st'|] eqn:Hlogin; [|by vm_compute in Hlogin].
  exists st'. split; [reflexivity|].
  apply (@login_without_user reference_host "abc" (storage_of []) st');
    [by vm_compute|done|exact Hlogin].
Defined.

Lemma request_carries_token_iff_authenticated_witness :
  ∃ headers', request_interceptor (storage_of [("token", "abc")])
                {[ "Content-Type" := "application/json" ]}
              = Ok headers'
              ∧ is_Some (headers' !! "Authorization").
Proof.
  destruct (request_carries_token_iff_authenticated
              (storage_of [("token", "abc")])
              {[ "Content-Type" := "application/json" ]} eq_refl)
    as (b & headers' & Hauth & Hreq & Hiff & _); [by vm_compute|].
  exists headers'. split; [exact Hreq|].
  apply Hiff. vm_compute in Hauth. by injection Hauth as <-.
Defined.

(** ** Image URLs *)

Lemma starts_with_inv (p s : string) :
  starts_with p s = true → ∃ r, s = p +:+ r.
Proof.
  revert s. induction p as [|a p IH]; intros [|b s] Hs; simpl in *;
    try done; [by eexists..|].
  apply andb_prop in Hs as [->%bool_decide_eq_true Hs].
  destruct (IH s Hs) as [r ->]. by exists r.
Qed.

Lemma substring_append (p r : string) :
  String.substring (String.length p)
    (String.length (p +:+ r) - String.length p) (p +:+ r) = r.
Proof.
  induction p as [|a p IH]; simpl; [|done].
  rewrite Nat.sub_0_r. apply substring_all.
Qed.

Lemma append_assoc (a b c : string) : (a +:+ b) +:+ c = a +:+ (b +:+ c).
Proof.
  induction a as [|x a IH]; [done|].
  change (String x ((a +:+ b) +:+ c) = String x (a +:+ (b +:+ c))).
  by f_equal.
Qed.

Lemma strip_result_image_slash (p : string) :
  strip_result_image ("/result-image/" +:+ p) = p.
Proof. exact (substring_append "/result-image/" p). Qed.

Lemma strip_result_image_bare (p : string) :
  strip_result_image ("result-image/" +:+ p) = p.
Proof. exact (substring_append "result-image/" p). Qed.

Lemma strip_result_image_suffix (w : string) :
  ∃ a, w = a +:+ strip_result_image w.
Proof.
  unfold strip_result_image.
  destruct (starts_with "/result-image/" w) eqn:Hs.
  { apply starts_with_inv in Hs as [r ->]. exists "/result-image/".
    symmetry. apply (f_equal (String.append "/result-image/")).
    exact (substring_append "/result-image/" r). }
  destruct (starts_with "result-image/" w) eqn:Hb.
  { apply starts_with_inv in Hb as [r ->]. exists "result-image/".
    symmetry. apply (f_equal (String.append "result-image/")).
    exact (substring_append "result-image/" r). }
  by exists "".
Qed.

(** X24: [getImageUrl] does not prefix twice.  A file name that does not
    itself begin with the route gives the same URL whether it is passed
    bare, behind [result-image/] or behind [/result-image/]; and of a path
    that begins with the route, that one occurrence is removed, whatever
    follows. *)
Theorem image_url_is_prefixed_once (p : string) :
  getImageUrl (Some ("/result-image/" +:+ p))
  = API_BASE_URL +:+ "/result-image/" +:+ p
  ∧ getImageUrl (Some ("result-image/" +:+ p))
    = API_BASE_URL +:+ "/result-image/" +:+ p
  ∧ (p ≠ "" →
     starts_with "/result-image/" p = false →
     starts_with "result-image/" p = false →
     getImageUrl (Some p) = API_BASE_URL +:+ "/result-image/" +:+ p).
Proof.
  split; [|split].
  - unfold getImageUrl. rewrite decide_False by done.
    by rewrite strip_result_image_slash.
  - unfold getImageUrl. rewrite decide_False by done.
    by rewrite strip_result_image_bare.
  - intros Hp Hs Hb. unfold getImageUrl, strip_result_image.
    by rewrite decide_False, Hs, Hb.
Qed.

Lemma image_url_is_prefixed_once_witness :
  getImageUrl (Some "a.png") = "http://localhost:8000/result-image/a.png"
  ∧ getImageUrl (Some "/result-image/a.png") = getImageUrl (Some "a.png").
Proof.
  destruct (image_url_is_prefixed_once "a.png") as (Hslash & _ & Hbare).
  assert (getImageUrl (Some "a.png")
          = API_BASE_URL +:+ "/result-image/" +:+ "a.png") as Hurl
    by (apply Hbare; [discriminate|reflexivity|reflexivity]).
  split; [exact Hurl|].
  etrans; [exact Hslash|]. symmetry. exact Hurl.
Defined.

(** X25: the URL that [AnalysisResults] shows for an annotated image.  A
    value that begins with [http] is shown as it is; the empty value and a
    lone slash give the placeholder; every other value gives a URL of the
    result-image route of the API, which ends with a final part of the
    value. *)
Theorem annotated_image_url_cases (u : string) :
  if starts_with "http" u then annotatedImageUrl u = u
  else if bool_decide (u = "" ∨ u = "/")
       then annotatedImageUrl u = "/placeholder.svg"
       else ∃ a p, u = a +:+ p
                   ∧ annotatedImageUrl u = API_BASE_URL +:+ "/result-image/" +:+ p.
Proof.
  unfold annotatedImageUrl. destruct (starts_with "http" u) eqn:Hhttp; [done|].
  case_bool_decide as Hu.
  { by destruct Hu as [->| ->]. }
  assert (strip_leading_slash u ≠ "" ∧ ∃ a, u = a +:+ strip_leading_slash u)
    as [Hw [a Ha]].
  { destruct u as [|c u]; [naive_solver|].
    destruct (decide (c = "/"%char)) as [->|Hc].
    - simpl. split; [naive_solver|]. by exists "/".
    - replace (strip_leading_slash (String c u)) with (String c u).
      + split; [done|]. by exists "".
      + simpl. repeat case_match; try done; by destruct Hc. }
  destruct (strip_result_image_suffix (strip_leading_slash u)) as [b Hb].
  exists (a +:+ b), (strip_result_image (strip_leading_slash u)).
  split.
  - rewrite append_assoc, <-Hb. exact Ha.
  - unfold getImageUrl. by rewrite decide_False.
Qed.

(** ** Clearing the chat from the chat surface *)

(** X26: when storage cannot be touched, a click on the clear button still
    resets the session, but [clearChat] throws before [handleClearChat]
    reaches [setError], so an error that is shown stays. *)
Theorem clear_click_without_storage
    (o : UseChatOptions) (date_now t : Z) (c : ChatBot) (st : Storage) :
  accessible st = false →
  handleClearChat o date_now t c st
  = (c, cleared_session date_now t, Throw SecurityError).
Proof.
  intros Hacc. unfold handleClearChat, clearChat, removeItem.
  by rewrite Hacc.
Qed.

Lemma clear_click_without_storage_witness :
  error (handleClearChat default_options 7 7
           {| isOpen := true; inputValue := ""; isTyping := false;
              error := Some "Failed to send message. Please check your connection and try again." |}
           locked_storage).1.1
  = Some "Failed to send message. Please check your connection and try again.".
Proof.
  by rewrite (clear_click_without_storage default_options 7 7 _ locked_storage eq_refl).
Defined.
